(** * Time-dependence checks of QuTiP's ODE solvers

    A shallow embedding of [qutip/odechecks.py]: the format checker
    [_ode_checks] (the "classifier" of the specification) and the array
    wrapper [_td_wrap_array_str] (the "normalizer").

    Python values are embedded as a small universe of atoms, lists and
    dictionaries; exceptions are values of [exn] carried by an error monad;
    the [%] string formatting operator and the conversions it relies on are
    embedded as executable functions. *)

From Stdlib Require Import ZArith String Ascii Sorted.
From stdpp Require Import base strings gmap list pretty numbers.

Set Warnings "-register-all".
Open Scope string_scope.
Open Scope nat_scope.

(** ** Python exceptions and the error monad *)

(** The exception classes the two functions can raise, with their message.
    [Unmodelled] is not a Python exception: it marks the one builtin
    conversion left outside the embedding ([str] of a value that is neither a
    string, an integer nor [None]); lemma [ode_checks_modelled] and
    [td_wrap_modelled] show the two functions never reach it. *)
Inductive exn : Type :=
| TypeError (msg : string)
| ValueError (msg : string)
| IndexError (msg : string)
| OverflowError (msg : string)
| UnboundLocalError (msg : string)
| Exception (msg : string)
| Unmodelled (what : string).

Inductive result (A : Type) : Type :=
| Ok (a : A)
| Raise (e : exn).
Arguments Ok {A} a.
Arguments Raise {A} e.

#[global] Instance result_ret : MRet result := λ A a, Ok a.
#[global] Instance result_bind : MBind result :=
  λ A B f m, match m with Ok a => f a | Raise e => Raise e end.

(** ** Numbers *)

(** A Python number: an [int] (unbounded), or a finite [float], the double
    [m * 2^e].  Infinities, NaN and the negative zero are not represented. *)
Inductive num : Type :=
| NInt (z : Z)
| NFloat (m e : Z).

(** Nearest integer to [n / d] for [0 <= n] and [0 < d], ties to even. *)
Definition round_half_even (n d : Z) : Z :=
  let q := (n / d)%Z in
  let r := (n mod d)%Z in
  if (d <? 2 * r)%Z || ((d =? 2 * r)%Z && Z.odd q) then (q + 1)%Z else q.

(** [float(z)]: exact below [2^53], else rounded to 53 significant bits;
    beyond the largest double the conversion raises. *)
Definition float_of_int (z : Z) : result (Z * Z) :=
  let a := Z.abs z in
  let shift := Z.max 0 (Z.log2 a + 1 - 53) in
  let mant := round_half_even a (2 ^ shift) in
  if (2 ^ 1024 <=? mant * 2 ^ shift)%Z
  then Raise (OverflowError "int too large to convert to float")
  else Ok ((Z.sgn z * mant)%Z, shift).

Definition to_float (x : num) : result (Z * Z) :=
  match x with
  | NInt z => float_of_int z
  | NFloat m e => Ok (m, e)
  end.

(** Left padding with zeros to six digits. *)
Definition pad6 (s : string) : string :=
  String.concat "" (replicate (6 - String.length s) "0") ++ s.

(** The [%f] conversion of the double [m * 2^e]: six digits after the point,
    the exact value rounded half to even. *)
Definition format_f (m e : Z) : string :=
  let n := round_half_even (Z.abs m * 2 ^ Z.max 0 e * 10 ^ 6) (2 ^ Z.max 0 (- e)) in
  (if (m <? 0)%Z then "-" else "") ++
  pretty (n / 10 ^ 6)%Z ++ "." ++ pad6 (pretty (n mod 10 ^ 6)%Z).

(** The [%d] conversion: an [int] as it is, a [float] truncated towards zero. *)
Definition format_d (x : num) : string :=
  match x with
  | NInt z => pretty z
  | NFloat m e => pretty (Z.quot (m * 2 ^ Z.max 0 e) (2 ^ Z.max 0 (- e)))
  end.

(** ** Values *)

(** Immutable values.  [AQobj] is an instance of [qutip.Qobj];
    [AFunction], [ABuiltinFunction] and [APartial] are instances of
    [types.FunctionType], [types.BuiltinFunctionType] and
    [functools.partial]; [ANdarray] is a one-dimensional [numpy.ndarray] of
    samples.  The natural numbers only tell objects apart. *)
Inductive atom : Type :=
| ANone
| ANum (x : num)
| AStr (s : string)
| AQobj (q : nat)
| AFunction (f : nat)
| ABuiltinFunction (f : nat)
| APartial (f : nat)
| ANdarray (a : list num).

(** Values: atoms, [list]s and [dict]s with string keys. *)
Inductive val : Type :=
| VAtom (a : atom)
| VList (l : list val)
| VDict (d : gmap string val).

Coercion VAtom : atom >-> val.

(** *** [isinstance] tests *)

Definition isinstance_Qobj (v : val) : bool :=
  match v with VAtom (AQobj _) => true | _ => false end.

Definition isinstance_FunctionType (v : val) : bool :=
  match v with VAtom (AFunction _) => true | _ => false end.

(** [isinstance(v, (FunctionType, BuiltinFunctionType, partial))] *)
Definition isinstance_callable (v : val) : bool :=
  match v with
  | VAtom (AFunction _) | VAtom (ABuiltinFunction _) | VAtom (APartial _) => true
  | _ => false
  end.

Definition isinstance_str (v : val) : bool :=
  match v with VAtom (AStr _) => true | _ => false end.

Definition isinstance_ndarray (v : val) : bool :=
  match v with VAtom (ANdarray _) => true | _ => false end.

Definition isinstance_list (v : val) : bool :=
  match v with VList _ => true | _ => false end.

Definition isinstance_dict (v : val) : bool :=
  match v with VDict _ => true | _ => false end.

(** *** Truth value, as tested by [if v:] *)

Definition num_nonzero (x : num) : bool :=
  match x with
  | NInt z => negb (z =? 0)%Z
  | NFloat m _ => negb (m =? 0)%Z
  end.

Definition truthy (v : val) : result bool :=
  match v with
  | VAtom ANone => Ok false
  | VAtom (ANum x) => Ok (num_nonzero x)
  | VAtom (AStr s) => Ok (negb (String.eqb s ""))
  | VAtom (AQobj _) | VAtom (AFunction _)
  | VAtom (ABuiltinFunction _) | VAtom (APartial _) => Ok true
  | VAtom (ANdarray a) =>
      match a with
      | [] => Ok false
      | [x] => Ok (num_nonzero x)
      | _ => Raise (ValueError
          "The truth value of an array with more than one element is ambiguous. Use a.any() or a.all()")
      end
  | VList l => Ok (negb (bool_decide (l = [])))
  | VDict d => Ok (negb (bool_decide (d = ∅)))
  end.

(** *** Indexing and unpacking *)

(** [l[i]] for [0 <= i]. *)
Definition getitem {A} (l : list A) (i : nat) : result A :=
  match l !! i with
  | Some x => Ok x
  | None => Raise (IndexError "list index out of range")
  end.

(** [l[-1]] *)
Definition getitem_last {A} (l : list A) : result A :=
  match list.last l with
  | Some x => Ok x
  | None => Raise (IndexError "list index out of range")
  end.

(** [a, b = l] *)
Definition unpack2 {A} (l : list A) : result (A * A) :=
  match l with
  | [a; b] => Ok (a, b)
  | _ :: _ :: _ :: _ => Raise (ValueError "too many values to unpack (expected 2)")
  | _ => Raise (ValueError "not enough values to unpack")
  end.

(** ** The [%] formatting operator *)

(** One conversion: the specifier character applied to one argument. *)
Definition convert (c : ascii) (a : atom) : result string :=
  if Ascii.eqb c "d" then
    match a with
    | ANum x => Ok (format_d x)
    | _ => Raise (TypeError "%d format: a real number is required")
    end
  else if Ascii.eqb c "f" then
    match a with
    | ANum x => '(m, e) ← to_float x; Ok (format_f m e)
    | _ => Raise (TypeError "must be real number")
    end
  else if Ascii.eqb c "s" then
    match a with
    | AStr s => Ok s
    | ANum (NInt z) => Ok (pretty z)
    | ANone => Ok "None"
    | _ => Raise (Unmodelled "str")
    end
  else Raise (ValueError "unsupported format character").

(** [fmt % args], for the specifiers [%d], [%f], [%s] and [%%].  A single
    argument that is not a tuple is the one-element list. *)
Fixpoint str_mod (fmt : string) (args : list atom) : result string :=
  match fmt with
  | "" =>
      match args with
      | [] => Ok ""
      | _ :: _ =>
          Raise (TypeError "not all arguments converted during string formatting")
      end
  | String "%" "" => Raise (ValueError "incomplete format")
  | String "%" (String c rest) =>
      if Ascii.eqb c "%" then r ← str_mod rest args; Ok (String "%" r)
      else
        match args with
        | [] => Raise (TypeError "not enough arguments for format string")
        | a :: args' =>
            s ← convert c a;
            r ← str_mod rest args';
            Ok (s ++ r)
        end
  | String c rest => r ← str_mod rest args; Ok (String c r)
  end.

(** ** [_ode_checks]: checks on the time-dependent format *)

(** The three index lists a pass fills: [h_const], [h_func], [h_str] for the
    Hamiltonian, [c_const], [c_func], [c_str] for the collapse operators. *)
Record parts : Type := Parts {
  p_const : list nat;
  p_func : list nat;
  p_str : list nat
}.

Definition no_parts : parts := Parts [] [] [].

(** What [_ode_checks] returns: the three counts for [solver == 'me'], the
    time type with the two partitions for [solver == 'mc'], and [None] when
    the function runs off its end. *)
Inductive ode_result : Type :=
| RCounts (n_const n_func n_str : nat)
| RTimeType (time_type : nat) (h : parts) (c : parts)
| RNone.

Definition msg_H : string := "Incorrect hamiltonian specification".
Definition msg_c : string := "Incorrect collapse operator specification".
Definition msg_mix : string :=
  "Cannot mix string and function type time-dependence formats".
Definition msg_no_cython : string :=
  "Unable to load Cython. Use Python function format.".
Definition msg_time_type : string := "Error determining time-dependence.".

(** The loop over the elements of a list (lines 52-67 for [H], 76-93 for
    [c_ops]; the two differ in the message only).  [k] is the index of the
    head of [l].  An element that is neither a [Qobj] nor a [list] falls
    through the [if]/[elif] without an [else]: it is skipped. *)
Fixpoint check_terms (msg : string) (k : nat) (l : list val) (p : parts)
  : result parts :=
  match l with
  | [] => Ok p
  | x :: l' =>
      if isinstance_Qobj x then
        check_terms msg (S k) l' (Parts (p_const p ++ [k]) (p_func p) (p_str p))
      else
        match x with
        | VList xs =>
            match xs with
            | [x0; x1] =>
                if negb (isinstance_Qobj x0) then Raise (TypeError msg)
                else if isinstance_callable x1 then
                  check_terms msg (S k) l' (Parts (p_const p) (p_func p ++ [k]) (p_str p))
                else if isinstance_str x1 then
                  check_terms msg (S k) l' (Parts (p_const p) (p_func p) (p_str p ++ [k]))
                else if isinstance_ndarray x1 then
                  check_terms msg (S k) l' (Parts (p_const p) (p_func p) (p_str p ++ [k]))
                else Raise (TypeError msg)
            | _ => Raise (TypeError msg)
            end
        | _ => check_terms msg (S k) l' p
        end
  end.

(** Lines 47-69. *)
Definition check_H (H : val) : result parts :=
  if isinstance_Qobj H then Ok no_parts
  else if isinstance_callable H then Ok no_parts
  else
    match H with
    | VList l => check_terms msg_H 0 l no_parts
    | _ => Raise (TypeError msg_H)
    end.

(** Lines 75-95. *)
Definition check_c_ops (c_ops : val) : result parts :=
  match c_ops with
  | VList l => check_terms msg_c 0 l no_parts
  | _ => Raise (TypeError msg_c)
  end.

(** Lines 107-116.  [cython] is [None] when [import Cython] fails and
    [Some v] when it succeeds with [Cython.__version__ == v]; [<] on strings
    is the lexicographic order.  In the message of the second [raise], [%]
    binds tighter than [+]: the right operand, which has no conversion
    specifier, is formatted first. *)
Definition check_cython (cython : option string) : result unit :=
  match cython with
  | None => Raise (Exception msg_no_cython)
  | Some version =>
      if String.ltb version "0.14" then
        tail ← str_mod "version 0.14+" [AStr version];
        Raise (Exception ("Cython version (%s) is too old. Upgrade to " ++ tail))
      else Ok ()
  end.

(** Lines 137-169: the time type of the Monte-Carlo solver. *)
Definition time_type_of (H : val) (h c : parts) : result nat :=
  let h_func := length (p_func h) in
  let h_str := length (p_str h) in
  let c_func := length (p_func c) in
  let c_str := length (p_str c) in
  if isinstance_FunctionType H then Ok 3
  else if ((h_func =? h_str) && (h_str =? 0)) && ((c_func =? c_str) && (c_str =? 0))
  then Ok 0
  else if (h_func =? h_str) && (h_str =? 0) then
    if 0 <? c_str then Ok 1
    else if 0 <? c_func then Ok 2
    else Raise (Exception msg_time_type)
  else if 0 <? h_str then
    if (c_func =? c_str) && (c_str =? 0) then Ok 10
    else if 0 <? c_str then Ok 11
    else Raise (Exception msg_time_type)
  else if 0 <? h_func then
    if (c_func =? c_str) && (c_str =? 0) then Ok 20
    else if 0 <? c_func then Ok 22
    else Raise (Exception msg_time_type)
  else Raise (UnboundLocalError "time_type").

(** Lines 118-171: what is returned, by solver. *)
Definition discriminant (H : val) (h c : parts) (solver : string)
  : result ode_result :=
  if String.eqb solver "me" then
    Ok (RCounts (length (p_const h ++ p_const c))
                (length (p_func h) + length (p_func c))
                (length (p_str h) + length (p_str c)))
  else if String.eqb solver "mc" then
    time_type ← time_type_of H h c;
    Ok (RTimeType time_type h c)
  else Ok RNone.

Definition _ode_checks (H c_ops : val) (cython : option string) (solver : string)
  : result ode_result :=
  h ← check_H H;
  c ← check_c_ops c_ops;
  if ((0 <? length (p_str h)) && (0 <? length (p_func h)))
     || ((0 <? length (p_str c)) && (0 <? length (p_func c)))
  then Raise (TypeError msg_mix)
  else
    _ ← (if (0 <? length (p_str h)) || (0 <? length (p_str c))
         then check_cython cython else Ok ());
    discriminant H h c solver.

(** ** [_td_wrap_array_str]: array terms wrapped in the string format *)

Definition msg_args : string :=
  "Time-dependent array format requires args to be a dictionary".

(** ["_td_array_%d" % n] *)
Definition td_array_name (n : nat) : result string :=
  str_mod "_td_array_%d" [ANum (NInt (Z.of_nat n))].

(** Lines 191-192 and 206-207: the tuple of arguments is built first
    ([times[-1]] raises on an empty grid), then formatted. *)
Definition td_str (times : list num) (name : string) : result string :=
  t_end ← getitem_last times;
  str_mod "(0 if (t > %f) else %s[round(%d * (t/%f))])"
    [ANum t_end; AStr name; ANum (NInt (Z.of_nat (length times) - 1)); ANum t_end].

(** The loop over a list (lines 187-197 for [H], 202-212 for [c_ops]).  The
    state is the counter [n], the list built so far and [args_new]. *)
Fixpoint wrap_terms (times : list num) (l : list val)
    (n : nat) (new : list val) (args_new : gmap string val)
  : result (nat * list val * gmap string val) :=
  match l with
  | [] => Ok (n, new, args_new)
  | Hk :: l' =>
      match Hk with
      | VList items =>
          Hk1 ← getitem items 1;
          if isinstance_ndarray Hk1 then
            '(H_op, H_td) ← unpack2 items;
            name ← td_array_name n;
            H_td_str ← td_str times name;
            wrap_terms times l' (S n)
              (new ++ [VList [H_op; VAtom (AStr H_td_str)]])
              (<[name := H_td]> args_new)
          else wrap_terms times l' n (new ++ [Hk]) args_new
      | _ => wrap_terms times l' n (new ++ [Hk]) args_new
      end
  end.

(** One pass (lines 184-197 for [H], 199-212 for [c_ops]): a value that is
    not a list is returned as it is, a list goes through the loop, from an
    empty list. *)
Definition wrap_pass (times : list num) (H : val) (n : nat)
    (args_new : gmap string val) : result (nat * val * gmap string val) :=
  match H with
  | VList l =>
      '(n', new, args_new') ← wrap_terms times l n [] args_new;
      Ok (n', VList new, args_new')
  | _ => Ok (n, H, args_new)
  end.

(** Lines 179-212: the two passes, sharing [n] and [args_new]. *)
Definition wrap_passes (H c_ops : val) (times : list num)
  : result (val * val * gmap string val) :=
  '(n, H_new, args_new) ← wrap_pass times H 0 ∅;
  '(n_end, c_ops_new, args_new) ← wrap_pass times c_ops n args_new;
  Ok (H_new, c_ops_new, args_new).

(** Lines 214-221.  [args_new.update(args)] lets the entries of [args]
    override those of [args_new]. *)
Definition merge_args (args : val) (args_new : gmap string val) : result val :=
  b ← truthy args;
  if (b : bool) then
    match args with
    | VDict d => Ok (VDict (d ∪ args_new))
    | _ =>
        if bool_decide (args_new = ∅) then Ok args
        else Raise (ValueError msg_args)
    end
  else Ok (VDict args_new).

Definition _td_wrap_array_str (H c_ops args : val) (times : list num)
  : result (val * val * val) :=
  '(H_new, c_ops_new, args_new) ← wrap_passes H c_ops times;
  args_out ← merge_args args args_new;
  Ok (H_new, c_ops_new, args_out).

(** ** [_td_wrap_array_str] over an object store

    Python lists and dictionaries are mutable objects reached through
    references, and the function both builds new ones ([H_new], [c_ops_new],
    [args_new], the rewritten terms) and hands references of its arguments
    back to the caller.  To state what it does to the objects it receives,
    the function is embedded a second time with the sharing made explicit:
    values are atoms or locations, the store maps a location to the object
    it holds, and every append, item assignment and [update] is a write to
    the store at the location the variable holds. *)
Module Store.

Definition loc : Type := positive.

Inductive ref : Type :=
| RAtom (a : atom)
| RObj (l : loc).

Inductive obj : Type :=
| OList (items : list ref)
| ODict (d : gmap string ref).

Abbreviation store := (gmap loc obj).

(** Computations that read and write the store and may raise.  The store
    is returned in both cases: writes made before an exception stay. *)
Definition M (A : Type) : Type := store → result A * store.

#[global] Instance M_ret : MRet M := λ A a σ, (Ok a, σ).
#[global] Instance M_bind : MBind M :=
  λ A B f m σ,
    match m σ with
    | (Ok a, σ') => f a σ'
    | (Raise e, σ') => (Raise e, σ')
    end.

Definition lift {A} (r : result A) : M A := λ σ, (r, σ).

(** A list display [[...]] or dict display [{}]: a new object. *)
Definition alloc (o : obj) : M loc :=
  λ σ, let l := fresh (dom σ) in (Ok l, <[l := o]> σ).

(** [isinstance(r, list)], with the items when it holds. *)
Definition as_list (r : ref) : M (option (list ref)) :=
  λ σ,
    match r with
    | RObj l =>
        match σ !! l with
        | Some (OList items) => (Ok (Some items), σ)
        | _ => (Ok None, σ)
        end
    | RAtom _ => (Ok None, σ)
    end.

(** [isinstance(r, dict)], with the entries when it holds. *)
Definition as_dict (r : ref) : M (option (gmap string ref)) :=
  λ σ,
    match r with
    | RObj l =>
        match σ !! l with
        | Some (ODict d) => (Ok (Some d), σ)
        | _ => (Ok None, σ)
        end
    | RAtom _ => (Ok None, σ)
    end.

Definition isinstance_ndarray (r : ref) : bool :=
  match r with RAtom (ANdarray _) => true | _ => false end.

(** [l.append(x)] *)
Definition list_append (l : loc) (x : ref) : M unit :=
  λ σ,
    match σ !! l with
    | Some (OList items) => (Ok (), <[l := OList (items ++ [x])]> σ)
    | _ => (Raise (Unmodelled "append"), σ)
    end.

(** [l[k] = x] on a dict *)
Definition dict_setitem (l : loc) (k : string) (x : ref) : M unit :=
  λ σ,
    match σ !! l with
    | Some (ODict d) => (Ok (), <[l := ODict (<[k := x]> d)]> σ)
    | _ => (Raise (Unmodelled "setitem"), σ)
    end.

(** [l.update(d)] on a dict *)
Definition dict_update (l : loc) (d : gmap string ref) : M unit :=
  λ σ,
    match σ !! l with
    | Some (ODict d0) => (Ok (), <[l := ODict (d ∪ d0)]> σ)
    | _ => (Raise (Unmodelled "update"), σ)
    end.

(** The truth value of a reference. *)
Definition truthy (r : ref) : M bool :=
  λ σ,
    match r with
    | RAtom a => (truthy (VAtom a), σ)
    | RObj l =>
        match σ !! l with
        | Some (OList items) => (Ok (negb (bool_decide (items = []))), σ)
        | Some (ODict d) => (Ok (negb (bool_decide (d = ∅))), σ)
        | None => (Raise (Unmodelled "dangling reference"), σ)
        end
    end.

(** The loop of lines 187-197 and 202-212.  [new] and [args_new] are the
    locations the variables [H_new] (or [c_ops_new]) and [args_new] hold;
    [items] are the items the iterator yields. *)
Fixpoint wrap_terms (times : list num) (items : list ref)
    (n : nat) (new args_new : loc) : M nat :=
  match items with
  | [] => mret n
  | Hk :: rest =>
      Hk_items ← as_list Hk;
      match Hk_items with
      | Some its =>
          Hk1 ← lift (getitem its 1);
          if isinstance_ndarray Hk1 then
            '(H_op, H_td) ← lift (unpack2 its);
            name ← lift (td_array_name n);
            H_td_str ← lift (td_str times name);
            _ ← dict_setitem args_new name H_td;
            term ← alloc (OList [H_op; RAtom (AStr H_td_str)]);
            _ ← list_append new (RObj term);
            wrap_terms times rest (S n) new args_new
          else
            _ ← list_append new Hk;
            wrap_terms times rest n new args_new
      | None =>
          _ ← list_append new Hk;
          wrap_terms times rest n new args_new
      end
  end.

(** One pass: [H_new = H] when [H] is not a list, else the loop. *)
Definition wrap_pass (times : list num) (H : ref) (n : nat)
    (new args_new : loc) : M (nat * ref) :=
  H_items ← as_list H;
  match H_items with
  | None => mret (n, H)
  | Some items =>
      n' ← wrap_terms times items n new args_new;
      mret (n', RObj new)
  end.

Definition _td_wrap_array_str (H c_ops args : ref) (times : list num)
  : M (ref * ref * ref) :=
  H_new ← alloc (OList []);
  c_ops_new ← alloc (OList []);
  args_new ← alloc (ODict ∅);
  '(n, H_out) ← wrap_pass times H 0 H_new args_new;
  '(n_end, c_ops_out) ← wrap_pass times c_ops n c_ops_new args_new;
  b ← truthy args;
  if (b : bool) then
    args_d ← as_dict args;
    match args_d with
    | Some d =>
        _ ← dict_update args_new d;
        mret (H_out, c_ops_out, RObj args_new)
    | None =>
        b_new ← truthy (RObj args_new);
        if negb b_new then mret (H_out, c_ops_out, args)
        else lift (Raise (ValueError msg_args))
    end
  else mret (H_out, c_ops_out, RObj args_new).

(** The value a reference stands for in a store. *)
Inductive repr (σ : store) : ref → val → Prop :=
| repr_atom a : repr σ (RAtom a) (VAtom a)
| repr_list l rs vs :
    σ !! l = Some (OList rs) →
    Forall2 (repr σ) rs vs →
    repr σ (RObj l) (VList vs)
| repr_dict l rd vd :
    σ !! l = Some (ODict rd) →
    (∀ k, option_Forall2 (repr σ) (rd !! k) (vd !! k)) →
    repr σ (RObj l) (VDict vd).

End Store.

(** ** The vocabulary of the specification *)

(** The error kinds of the specification, as the exceptions that stand for
    them in the source. *)
Definition MalformedSpecification (e : exn) : Prop :=
  e = TypeError msg_H ∨ e = TypeError msg_c.
Definition MixedEncoding (e : exn) : Prop := e = TypeError msg_mix.
Definition MissingCapability (e : exn) : Prop :=
  ∃ msg, e = Exception msg ∧ msg ≠ msg_time_type.
Definition IncompatibleParameterFormat (e : exn) : Prop :=
  e = ValueError msg_args.

(** The terms of a specification: the elements of a list, none otherwise. *)
Definition terms (v : val) : list val :=
  match v with VList l => l | _ => [] end.

(** The kinds of list elements.  A callback term is a pair of an operator
    and a callable, a string-like term a pair of an operator and a string or
    an array; a malformed term is a list that is neither. *)
Definition callback_term (x : val) : bool :=
  match x with
  | VList [x0; x1] => isinstance_Qobj x0 && isinstance_callable x1
  | _ => false
  end.

Definition string_term (x : val) : bool :=
  match x with
  | VList [x0; x1] =>
      isinstance_Qobj x0 && (isinstance_str x1 || isinstance_ndarray x1)
  | _ => false
  end.

Definition malformed_term (x : val) : bool :=
  match x with
  | VList [x0; x1] =>
      negb (isinstance_Qobj x0)
      || negb (isinstance_callable x1 || isinstance_str x1 || isinstance_ndarray x1)
  | VList _ => true
  | _ => false
  end.

(** An element that is neither a bare operator nor a well-formed pair. *)
Definition ill_shaped (x : val) : bool :=
  negb (isinstance_Qobj x || callback_term x || string_term x).

(** The indices, counted from [k], of the elements that satisfy [f]. *)
Fixpoint indices_from (f : val → bool) (k : nat) (l : list val) : list nat :=
  match l with
  | [] => []
  | x :: l' => (if f x then [k] else []) ++ indices_from f (S k) l'
  end.

(** A list holds a callback term and a string-like term. *)
Definition mixed (l : list val) : bool :=
  existsb callback_term l && existsb string_term l.

(** An array-encoded term, as [_td_wrap_array_str] tests it: a list whose
    item 1 is an array. *)
Definition array_term (x : val) : bool :=
  match x with
  | VList (_ :: x1 :: _) => isinstance_ndarray x1
  | _ => false
  end.

(** A term that is a list has an item 1 (the classifier accepts lists of
    two items only). *)
Definition indexable (x : val) : bool :=
  match x with
  | VList items => 2 <=? length items
  | _ => true
  end.

(** The number of array-encoded terms among the first [p] of a list. *)
Definition rank (l : list val) (p : nat) : nat :=
  length (filter (λ x, array_term x = true) (take p l)).

(** The partition of a list by the kinds of its elements. *)
Definition parts_of (l : list val) : parts :=
  Parts (indices_from isinstance_Qobj 0 l)
        (indices_from callback_term 0 l)
        (indices_from string_term 0 l).

(** An element both loops of [_ode_checks] skip: neither a [Qobj] nor a
    [list]. *)
Definition skipped (x : val) : bool :=
  negb (isinstance_Qobj x) && negb (isinstance_list x).

(** The encoding of the time dependence of a list that does not mix the
    two: by strings (or arrays), by callbacks, or none. *)
Inductive encoding : Type :=
| Constant
| Strings
| Callbacks.

Definition encoding_of (l : list val) : encoding :=
  if existsb string_term l then Strings
  else if existsb callback_term l then Callbacks
  else Constant.

(** The table in the comment of lines 124-135, with the two combinations it
    leaves out. *)
Definition time_type_code (h c : encoding) : option nat :=
  match h, c with
  | Constant, Constant => Some 0
  | Constant, Strings => Some 1
  | Constant, Callbacks => Some 2
  | Strings, Constant => Some 10
  | Strings, Strings => Some 11
  | Strings, Callbacks => None
  | Callbacks, Constant => Some 20
  | Callbacks, Callbacks => Some 22
  | Callbacks, Strings => None
  end.

(** A computation keeps a store [σ0]: run from any store that extends
    [σ0], it ends, with a result or an exception, in a store that extends
    [σ0]; every object of [σ0] is then as it was.  [Q] is what holds of a
    result. *)
Definition keeps (σ0 : gmap Store.loc Store.obj) {A} (m : Store.M A)
    (Q : A → Prop) : Prop :=
  ∀ σ, σ0 ⊆ σ → σ0 ⊆ (m σ).2 ∧ ∀ a, (m σ).1 = Ok a → Q a.

(** The state of a pass: [σb] holds the objects the values read so far
    live in, and is kept; the list [new] and the mapping [args_new] are
    outside of it, and hold references that stand for the list and the
    mapping of the value embedding. *)
Definition pass_state (σb σ : gmap Store.loc Store.obj) (new args_new : Store.loc)
    (vnew : list val) (a : gmap string val) : Prop :=
  σb ⊆ σ ∧ σb !! new = None ∧ σb !! args_new = None ∧ new ≠ args_new
  ∧ ∃ rnew rd,
      σ !! new = Some (Store.OList rnew)
      ∧ σ !! args_new = Some (Store.ODict rd)
      ∧ Forall2 (Store.repr σb) rnew vnew
      ∧ ∀ k, option_Forall2 (Store.repr σb) (rd !! k) (a !! k).

(** From one state of a pass to a later one: the base has grown by
    objects that were not in the store, and the store has changed at
    [new], at [args_new] and at new locations only. *)
Definition pass_step (σb σ σb' σ' : gmap Store.loc Store.obj)
    (new args_new : Store.loc) : Prop :=
  σb ⊆ σb'
  ∧ (∀ l0, is_Some (σ !! l0) → σb !! l0 = None → σb' !! l0 = None)
  ∧ (∀ l0 o, σ !! l0 = Some o → l0 ≠ new → l0 ≠ args_new →
             σ' !! l0 = Some o).

(** * Properties *)

(** ** The error monad *)

Lemma bind_Ok {A B} (m : result A) (f : A → result B) b :
  m ≫= f = Ok b ↔ ∃ a, m = Ok a ∧ f a = Ok b.
Proof.
  destruct m as [a|e]; simpl.
  - split; [eauto | by intros (a' & [= ->] & Hf)].
  - split; [done | by intros (a' & Ha & Hf)].
Qed.

Lemma bind_Raise {A B} (m : result A) (f : A → result B) e :
  m ≫= f = Raise e ↔ m = Raise e ∨ ∃ a, m = Ok a ∧ f a = Raise e.
Proof.
  destruct m as [a|e']; simpl.
  - split; [eauto | by intros [Hm | (a' & [= ->] & Hf)]].
  - split; [by intros [= ->]; left | by intros [[= ->] | (a' & Ha & Hf)]].
Qed.

(** ** The classifier, [_ode_checks] *)

Section classifier.

Implicit Types (l : list val) (p : parts) (x : val) (k i : nat).

Lemma ill_shaped_list x :
  ill_shaped x = true →
  isinstance_list x = true → malformed_term x = true.
Proof.
  destruct x as [a|[|x0 [|x1 [|? ?]]]|d]; try done.
  unfold ill_shaped, malformed_term, callback_term, string_term; simpl.
  destruct (isinstance_Qobj x0); simpl; [|done].
  destruct (isinstance_callable x1), (isinstance_str x1),
    (isinstance_ndarray x1); done.
Qed.

Lemma malformed_ill_shaped x : malformed_term x = true → ill_shaped x = true.
Proof.
  destruct x as [a|[|x0 [|x1 [|? ?]]]|d]; try done.
  unfold ill_shaped, malformed_term, callback_term, string_term; simpl.
  destruct (isinstance_Qobj x0); simpl; [|done].
  destruct (isinstance_callable x1), (isinstance_str x1),
    (isinstance_ndarray x1); done.
Qed.

(** One step of the loop, by the kind of the head. *)
Lemma check_terms_cons msg k x l p :
  check_terms msg k (x :: l) p =
    if malformed_term x then Raise (TypeError msg)
    else check_terms msg (S k) l
           (Parts (p_const p ++ (if isinstance_Qobj x then [k] else []))
                  (p_func p ++ (if callback_term x then [k] else []))
                  (p_str p ++ (if string_term x then [k] else []))).
Proof.
  destruct p as [pc pf ps].
  destruct x as [a|[|x0 [|x1 [|? ?]]]|d]; simpl; rewrite ?app_nil_r; try done.
  - by destruct a; simpl; rewrite ?app_nil_r.
  - by destruct x0 as [[]| |], x1 as [[]| |]; simpl; rewrite ?app_nil_r.
Qed.

Lemma check_terms_ok msg k l p :
  existsb malformed_term l = false →
  check_terms msg k l p =
    Ok (Parts (p_const p ++ indices_from isinstance_Qobj k l)
              (p_func p ++ indices_from callback_term k l)
              (p_str p ++ indices_from string_term k l)).
Proof.
  revert k p. induction l as [|x l IH]; intros k p Hl.
  - destruct p; simpl. by rewrite !app_nil_r.
  - simpl in Hl. apply orb_false_iff in Hl as [Hx Hl].
    rewrite check_terms_cons, Hx, (IH _ _ Hl). simpl.
    by rewrite <- !app_assoc.
Qed.

Lemma check_terms_err msg k l p :
  existsb malformed_term l = true →
  check_terms msg k l p = Raise (TypeError msg).
Proof.
  revert k p. induction l as [|x l IH]; intros k p Hl; [done|].
  rewrite check_terms_cons. simpl in Hl.
  destruct (malformed_term x); [done|]. by apply IH.
Qed.

Lemma indices_from_nil (f : val → bool) k l :
  indices_from f k l = [] ↔ existsb f l = false.
Proof.
  revert k. induction l as [|x l IH]; intros k; simpl; [done|].
  destruct (f x); simpl; [done|]. apply IH.
Qed.

Lemma indices_from_length_pos (f : val → bool) k l :
  (0 <? length (indices_from f k l)) = existsb f l.
Proof.
  revert k. induction l as [|x l IH]; intros k; simpl; [done|].
  destruct (f x); simpl; [done|]. apply IH.
Qed.

Lemma elem_of_indices_from (f : val → bool) k l i :
  i ∈ indices_from f k l ↔ ∃ x, k ≤ i ∧ l !! (i - k) = Some x ∧ f x = true.
Proof.
  revert k. induction l as [|x l IH]; intros k; simpl.
  - split; [by intros ?%elem_of_nil | by intros (? & ? & ? & ?)].
  - rewrite elem_of_app, IH. split.
    + intros [Hi | (y & Hk & Hy & Hf)].
      * destruct (f x) eqn:Hx; [|by apply elem_of_nil in Hi].
        apply list_elem_of_singleton in Hi as ->. exists x.
        by rewrite Nat.sub_diag.
      * exists y. split; [lia|]. split; [|done].
        by replace (i - k) with (S (i - S k)) by lia.
    + intros (y & Hk & Hy & Hf). destruct (decide (i = k)) as [->|Hne].
      * rewrite Nat.sub_diag in Hy. injection Hy as ->. rewrite Hf.
        left. by apply list_elem_of_singleton.
      * right. exists y. split; [lia|]. split; [|done].
        by replace (i - k) with (S (i - S k)) in Hy by lia.
Qed.


(** The checks of a list argument are the loop from index 0. *)
Lemma check_H_list l : check_H (VList l) = check_terms msg_H 0 l no_parts.
Proof. done. Qed.

Lemma check_H_list_ok l :
  existsb malformed_term l = false →
  check_H (VList l) =
    Ok (Parts (indices_from isinstance_Qobj 0 l)
              (indices_from callback_term 0 l)
              (indices_from string_term 0 l)).
Proof. intros Hl. by rewrite check_H_list, check_terms_ok. Qed.

Lemma check_c_ops_list_ok l :
  existsb malformed_term l = false →
  check_c_ops (VList l) =
    Ok (Parts (indices_from isinstance_Qobj 0 l)
              (indices_from callback_term 0 l)
              (indices_from string_term 0 l)).
Proof. intros Hl. simpl. by rewrite check_terms_ok. Qed.

Lemma check_H_list_inv l h :
  check_H (VList l) = Ok h →
  existsb malformed_term l = false ∧
  h = Parts (indices_from isinstance_Qobj 0 l)
            (indices_from callback_term 0 l)
            (indices_from string_term 0 l).
Proof.
  intros Hh. destruct (existsb malformed_term l) eqn:Hl.
  - by rewrite check_H_list, check_terms_err in Hh.
  - rewrite check_H_list_ok in Hh by done. by injection Hh as <-.
Qed.

Lemma check_c_ops_list_inv l c :
  check_c_ops (VList l) = Ok c →
  existsb malformed_term l = false ∧
  c = Parts (indices_from isinstance_Qobj 0 l)
            (indices_from callback_term 0 l)
            (indices_from string_term 0 l).
Proof.
  intros Hc. destruct (existsb malformed_term l) eqn:Hl.
  - simpl in Hc. by rewrite check_terms_err in Hc.
  - rewrite check_c_ops_list_ok in Hc by done. by injection Hc as <-.
Qed.

(** The checks raise the [TypeError] of their list only. *)
Lemma check_H_Raise H e : check_H H = Raise e → e = TypeError msg_H.
Proof.
  unfold check_H. destruct (isinstance_Qobj H); [done|].
  destruct (isinstance_callable H); [done|].
  destruct H as [a|l|d]; try by intros [= <-].
  destruct (existsb malformed_term l) eqn:Hl.
  - rewrite check_terms_err by done. by intros [= <-].
  - by rewrite check_terms_ok.
Qed.

Lemma check_c_ops_Raise c e : check_c_ops c = Raise e → e = TypeError msg_c.
Proof.
  destruct c as [a|l|d]; simpl; try by intros [= <-].
  destruct (existsb malformed_term l) eqn:Hl.
  - rewrite check_terms_err by done. by intros [= <-].
  - by rewrite check_terms_ok.
Qed.

(** The two shape checks, by the kinds of the terms: the Hamiltonian is an
    operator, a callable or a list without malformed term, the collapse
    operators a list without malformed term; the partition is then the one
    of the kinds. *)
Lemma check_H_cases (H : val) :
  check_H H =
    if negb (isinstance_Qobj H || isinstance_callable H || isinstance_list H)
       || existsb malformed_term (terms H)
    then Raise (TypeError msg_H)
    else Ok (parts_of (terms H)).
Proof.
  destruct H as [a|l|d]; [by destruct a| |done].
  rewrite check_H_list. simpl.
  destruct (existsb malformed_term l) eqn:Hl.
  - by apply check_terms_err.
  - by rewrite check_terms_ok.
Qed.

Lemma check_c_ops_cases (c : val) :
  check_c_ops c =
    if negb (isinstance_list c) || existsb malformed_term (terms c)
    then Raise (TypeError msg_c)
    else Ok (parts_of (terms c)).
Proof.
  destruct c as [a|l|d]; [done| |done]. simpl.
  destruct (existsb malformed_term l) eqn:Hl.
  - by apply check_terms_err.
  - by rewrite check_terms_ok.
Qed.

(** The three outcomes of the Cython check: the module is recent enough;
    it is missing; it is older than 0.14, and then the message of the
    exception cannot be built. *)
Lemma check_cython_cases cython :
  match cython with
  | None => check_cython cython = Raise (Exception msg_no_cython)
  | Some version =>
      if String.ltb version "0.14"
      then check_cython cython =
             Raise (TypeError "not all arguments converted during string formatting")
      else check_cython cython = Ok ()
  end.
Proof. destruct cython as [v|]; simpl; [|done]. by destruct (String.ltb v "0.14"). Qed.

Lemma check_cython_Raise cython e :
  check_cython cython = Raise e →
  e = Exception msg_no_cython ∨
  e = TypeError "not all arguments converted during string formatting".
Proof.
  pose proof (check_cython_cases cython) as Hc.
  destruct cython as [v|].
  - destruct (String.ltb v "0.14"); rewrite Hc; [|done].
    intros [= <-]. by right.
  - rewrite Hc. intros [= <-]. by left.
Qed.

(** The last branch of the time type, where no assignment was made, is
    never taken. *)
Lemma time_type_of_Raise H h c e :
  time_type_of H h c = Raise e → e = Exception msg_time_type.
Proof.
  unfold time_type_of.
  destruct (isinstance_FunctionType H); [done|].
  destruct (length (p_func h)) as [|hf], (length (p_str h)) as [|hs],
    (length (p_func c)) as [|cf], (length (p_str c)) as [|cs];
    simpl; repeat case_match; try done; by intros [= <-].
Qed.

End classifier.

Section classifier_claims.

Implicit Types (H c : list val) (cython : option string) (solver : string).

(** After the shape checks of two lists, the function goes on with the
    test on mixed formats, stated on the kinds of the terms. *)
Lemma ode_checks_lists H c cython solver :
  existsb malformed_term H = false →
  existsb malformed_term c = false →
  _ode_checks (VList H) (VList c) cython solver =
    let h := Parts (indices_from isinstance_Qobj 0 H)
                   (indices_from callback_term 0 H)
                   (indices_from string_term 0 H) in
    let pc := Parts (indices_from isinstance_Qobj 0 c)
                    (indices_from callback_term 0 c)
                    (indices_from string_term 0 c) in
    if mixed H || mixed c then Raise (TypeError msg_mix)
    else
      _ ← (if existsb string_term H || existsb string_term c
           then check_cython cython else Ok ());
      discriminant (VList H) h pc solver.
Proof.
  intros HH Hc. unfold _ode_checks.
  rewrite check_H_list_ok, check_c_ops_list_ok by done. simpl.
  rewrite !indices_from_length_pos. unfold mixed.
  by rewrite (andb_comm (existsb string_term H)),
    (andb_comm (existsb string_term c)).
Qed.

(** Shape errors come first: a malformed list term of the Hamiltonian, then
    one of the collapse operators. *)
Lemma ode_checks_malformed_H H (c : val) cython solver :
  existsb malformed_term H = true →
  _ode_checks (VList H) c cython solver = Raise (TypeError msg_H).
Proof.
  intros HH. unfold _ode_checks. by rewrite check_H_list, check_terms_err.
Qed.

Lemma ode_checks_malformed_c H c cython solver :
  existsb malformed_term H = false →
  existsb malformed_term c = true →
  _ode_checks (VList H) (VList c) cython solver = Raise (TypeError msg_c).
Proof.
  intros HH Hc. unfold _ode_checks. rewrite check_H_list_ok by done.
  simpl. by rewrite check_terms_err.
Qed.

(** What follows the test on mixed formats does not raise its error. *)
Lemma discriminant_Raise (H : val) h pc solver e :
  discriminant H h pc solver = Raise e → e = Exception msg_time_type.
Proof.
  unfold discriminant. destruct (String.eqb solver "me"); [done|].
  destruct (String.eqb solver "mc"); [|done].
  intros Hr. apply bind_Raise in Hr as [Hr | (? & _ & ?)]; [|done].
  by apply time_type_of_Raise in Hr as ->.
Qed.

Lemma ode_checks_tail_not_mixed (H : val) h pc cython solver (b : bool) e :
  (_ ← (if b then check_cython cython else Ok ());
   discriminant H h pc solver) = Raise e →
  e ≠ TypeError msg_mix.
Proof.
  intros Hr. apply bind_Raise in Hr as [Hr | ([] & _ & Hr)].
  - destruct b; [|done]. by apply check_cython_Raise in Hr as [-> | ->].
  - by apply discriminant_Raise in Hr as ->.
Qed.

(** C2, as amended.  For a pair of specification lists, [_ode_checks] fails
    with the mixed-encoding error exactly when both lists pass the shape
    checks and one of them (the Hamiltonian list alone, or the
    collapse-operator list alone) holds at least one callback term and at
    least one string-or-array term.  A list with both kinds fails so
    whatever well-shaped terms the other list holds, and callbacks in one
    list with strings in the other are not rejected by this test. *)
Theorem mixed_encoding_iff H c cython solver :
  (∃ e, _ode_checks (VList H) (VList c) cython solver = Raise e ∧ MixedEncoding e)
  ↔ (∃ h, check_H (VList H) = Ok h) ∧ (∃ pc, check_c_ops (VList c) = Ok pc)
    ∧ (mixed H = true ∨ mixed c = true).
Proof.
  unfold MixedEncoding. split.
  - intros (e & Hr & ->).
    destruct (existsb malformed_term H) eqn:HH.
    { by rewrite ode_checks_malformed_H in Hr. }
    destruct (existsb malformed_term c) eqn:Hc.
    { by rewrite ode_checks_malformed_c in Hr. }
    rewrite check_H_list_ok, check_c_ops_list_ok by done.
    split; [eauto|]. split; [eauto|].
    rewrite ode_checks_lists in Hr by done. simpl in Hr.
    destruct (mixed H || mixed c) eqn:Hm.
    + by apply orb_true_iff in Hm.
    + by apply ode_checks_tail_not_mixed in Hr.
  - intros ((h & Hh) & (pc & Hpc) & Hm).
    apply check_H_list_inv in Hh as [HH _].
    apply check_c_ops_list_inv in Hpc as [Hc _].
    exists (TypeError msg_mix). split; [|done].
    rewrite ode_checks_lists by done. simpl.
    apply orb_true_iff in Hm. by rewrite Hm.
Qed.

(** C2, as stated, fails: a Hamiltonian list with a callback term and a
    string term does not fail with the mixed-encoding error when the
    collapse-operator list holds a malformed term; the shape error of that
    list is raised first. *)
Lemma mixed_encoding_not_regardless :
  let H := [VList [VAtom (AQobj 0); VAtom (AFunction 0)];
            VList [VAtom (AQobj 1); VAtom (AStr "sin(t)")]] in
  let c := [VList [VAtom (AQobj 2)]] in
  mixed H = true
  ∧ _ode_checks (VList H) (VList c) None "me" = Raise (TypeError msg_c)
  ∧ ¬ MixedEncoding (TypeError msg_c)
  ∧ ¬ ((∃ e, _ode_checks (VList H) (VList c) None "me" = Raise e ∧ MixedEncoding e)
       ↔ (mixed H = true ∨ mixed c = true)).
Proof.
  simpl. split; [done|]. split; [done|]. split; [by intros [=]|].
  intros [_ Hm]. destruct Hm as (e & He & Hmix); [by left|].
  vm_compute in He. injection He as <-. by injection Hmix.
Qed.


(** An element that is neither a [Qobj] nor a [list] leaves the loop state
    as it is: no branch of the [if]/[elif] chain takes it. *)
Lemma check_terms_skip msg k x l p :
  isinstance_Qobj x = false → isinstance_list x = false →
  check_terms msg k (x :: l) p = check_terms msg (S k) l p.
Proof. by destruct x as [[]| |]. Qed.

(** X1: for two lists, the call fails with a shape error exactly when one
    of them holds a malformed list term: a list that is not a pair of an
    operator and a callable, a string or an array. *)
Lemma malformed_specification_iff H c cython solver :
  (∃ e, _ode_checks (VList H) (VList c) cython solver = Raise e
        ∧ MalformedSpecification e)
  ↔ existsb malformed_term H = true ∨ existsb malformed_term c = true.
Proof.
  unfold MalformedSpecification. split.
  - intros (e & Hr & He).
    destruct (existsb malformed_term H) eqn:HH; [by left|].
    destruct (existsb malformed_term c) eqn:Hc; [by right|].
    rewrite ode_checks_lists in Hr by done. simpl in Hr.
    destruct (mixed H || mixed c).
    + injection Hr as <-. by destruct He.
    + apply bind_Raise in Hr as [Hr | ([] & _ & Hr)].
      * destruct (_ || _) in Hr; [|done].
        apply check_cython_Raise in Hr as [-> | ->]; by destruct He.
      * apply discriminant_Raise in Hr as ->. by destruct He.
  - destruct (existsb malformed_term H) eqn:HH.
    + intros _. exists (TypeError msg_H).
      split; [by apply ode_checks_malformed_H | by left].
    + intros [Hc|Hc]; [done|]. exists (TypeError msg_c).
      split; [by apply ode_checks_malformed_c | by right].
Qed.

(** C1: a bare string and a number appearing directly in the Hamiltonian
    list, and a bare string in the collapse-operator list, are neither
    bare operators nor well-formed pairs; [_ode_checks] does not fail on
    them: both loops skip them and a result is returned. *)
Theorem bare_string_and_number_accepted cython :
  ill_shaped (VAtom (AStr "sin(t)")) = true
  ∧ ill_shaped (VAtom (ANum (NInt 5))) = true
  ∧ _ode_checks (VList [VAtom (AStr "sin(t)"); VAtom (ANum (NInt 5))])
      (VList [VAtom (AStr "sin(t)")]) cython "mc"
    = Ok (RTimeType 0 no_parts no_parts).
Proof. done. Qed.

(** X2: a Hamiltonian that is a Python function ([FunctionType]) has time
    type 3 and empty partitions, whenever the call with [solver = 'mc']
    returns, whatever the collapse operators. *)
Lemma function_hamiltonian_time_type f (c : val) cython r :
  _ode_checks (VAtom (AFunction f)) c cython "mc" = Ok r →
  ∃ pc, r = RTimeType 3 no_parts pc.
Proof.
  unfold _ode_checks. simpl. intros Hr.
  apply bind_Ok in Hr as (pc & _ & Hr).
  destruct (_ && _) in Hr; [done|].
  apply bind_Ok in Hr as ([] & _ & Hr).
  injection Hr as <-. by exists pc.
Qed.

(** C4: for a Hamiltonian that is a partially-applied callable, or a
    builtin function, [_ode_checks] with [solver = 'mc'] returns the time
    type 0 of a constant problem, not 3: the test of line 137 is on
    [FunctionType] alone, where those of lines 49 and 59 take the three
    callable types. *)
Theorem partial_hamiltonian_time_type f cython :
  isinstance_callable (VAtom (APartial f)) = true
  ∧ _ode_checks (VAtom (APartial f)) (VList []) cython "mc"
    = Ok (RTimeType 0 no_parts no_parts)
  ∧ _ode_checks (VAtom (ABuiltinFunction f)) (VList []) cython "mc"
    = Ok (RTimeType 0 no_parts no_parts).
Proof. done. Qed.

(** X3: without a string-like term in either list, Cython is not looked
    for: the call gives the same result whether it is installed or not, and
    whatever its version. *)
Lemma capability_not_checked (H c : val) cython cython' solver h pc :
  check_H H = Ok h → check_c_ops c = Ok pc →
  p_str h = [] → p_str pc = [] →
  _ode_checks H c cython solver = _ode_checks H c cython' solver.
Proof.
  intros Hh Hpc Hsh Hsc. unfold _ode_checks.
  by rewrite Hh, Hpc; simpl; rewrite Hsh, Hsc.
Qed.

(** X4: with a string-like term in a list, no callback term, and no
    Cython, the call fails with the message of the missing module, for every
    solver. *)
Lemma capability_absent (H c : val) solver h pc :
  check_H H = Ok h → check_c_ops c = Ok pc →
  p_func h = [] → p_func pc = [] →
  p_str h ≠ [] ∨ p_str pc ≠ [] →
  _ode_checks H c None solver = Raise (Exception msg_no_cython)
  ∧ MissingCapability (Exception msg_no_cython).
Proof.
  intros Hh Hpc Hfh Hfc Hs. split; [|by eexists].
  unfold _ode_checks. rewrite Hh, Hpc; simpl. rewrite Hfh, Hfc; simpl.
  rewrite !andb_false_r; simpl.
  destruct (p_str h), (p_str pc), Hs; done.
Qed.

(** C8: with a string term and a Cython older than 0.14, [_ode_checks]
    does not raise the exception of line 115: in its argument [%] binds
    tighter than [+], the right operand has no conversion specifier, and
    the formatting raises a [TypeError] of its own. *)
Theorem old_cython_message_not_built solver :
  String.ltb "0.13" "0.14" = true
  ∧ _ode_checks (VList [VList [VAtom (AQobj 0); VAtom (AStr "sin(t)")]])
      (VList []) (Some "0.13") solver
    = Raise (TypeError "not all arguments converted during string formatting")
  ∧ ¬ MissingCapability
        (TypeError "not all arguments converted during string formatting").
Proof. split; [done|]. split; [done|]. by intros (msg & [=] & _). Qed.

(** C10: for a solver other than ['me'] and ['mc'], [_ode_checks] makes
    every check and fails on it, in this order: a Hamiltonian that is
    neither an operator, a callable nor a list, or that holds a malformed
    list term, raises the shape error of the Hamiltonian; collapse
    operators that are not a list, or hold a malformed list term, raise
    theirs; a list that mixes callback and string-like terms raises the
    mixed-format error; with a string-like term, a missing Cython raises
    the exception of the missing module and one older than 0.14 the
    [TypeError] of the formatting; and when no check fails the call returns
    [None].  The exceptions are those of the call with [solver = 'me'], and
    [None] is returned exactly where that call returns its counts. *)
Theorem unsupported_solver_returns_None (H c : val) cython solver :
  solver ≠ "me" → solver ≠ "mc" →
  _ode_checks H c cython solver
  = (if negb (isinstance_Qobj H || isinstance_callable H || isinstance_list H)
        || existsb malformed_term (terms H)
     then Raise (TypeError msg_H)
     else if negb (isinstance_list c) || existsb malformed_term (terms c)
     then Raise (TypeError msg_c)
     else if mixed (terms H) || mixed (terms c)
     then Raise (TypeError msg_mix)
     else if existsb string_term (terms H) || existsb string_term (terms c)
     then match cython with
          | None => Raise (Exception msg_no_cython)
          | Some version =>
              if String.ltb version "0.14"
              then Raise (TypeError
                     "not all arguments converted during string formatting")
              else Ok RNone
          end
     else Ok RNone)
  ∧ (∀ e, _ode_checks H c cython solver = Raise e
        ↔ _ode_checks H c cython "me" = Raise e)
  ∧ (∀ r, _ode_checks H c cython "me" = Ok r →
          _ode_checks H c cython solver = Ok RNone)
  ∧ (∀ r, _ode_checks H c cython solver = Ok r → r = RNone)
  ∧ (∀ e, _ode_checks H c cython solver = Raise e →
          MalformedSpecification e ∨ MixedEncoding e
          ∨ check_cython cython = Raise e).
Proof.
  intros Hme Hmc. apply String.eqb_neq in Hme, Hmc. split.
  { unfold _ode_checks, discriminant. rewrite Hme, Hmc.
    rewrite check_H_cases, check_c_ops_cases.
    destruct (negb _ || existsb malformed_term (terms H)); [done|].
    destruct (negb _ || existsb malformed_term (terms c)); [done|].
    simpl. rewrite !indices_from_length_pos. unfold mixed.
    rewrite (andb_comm (existsb string_term (terms H))),
      (andb_comm (existsb string_term (terms c))).
    destruct (_ && _ || _ && _); [done|].
    destruct (_ || _); [|done].
    pose proof (check_cython_cases cython) as Hcy.
    destruct cython as [v|]; [|by rewrite Hcy].
    destruct (String.ltb v "0.14"); by rewrite Hcy. }
  unfold _ode_checks, discriminant. rewrite Hme, Hmc. simpl.
  destruct (check_H H) as [h|eh] eqn:Hh; simpl.
  2: { apply check_H_Raise in Hh as ->. unfold MalformedSpecification.
       repeat split; try done. intros e [= <-]. by left; left. }
  destruct (check_c_ops c) as [pc|ec] eqn:Hpc; simpl.
  2: { apply check_c_ops_Raise in Hpc as ->. unfold MalformedSpecification.
       repeat split; try done. intros e [= <-]. by left; right. }
  destruct (_ && _ || _ && _).
  { repeat split; try done. intros e [= <-]. by right; left. }
  destruct (_ || _); simpl.
  2: { repeat split; try done. by intros r [= <-]. }
  destruct (check_cython cython) as [[]|ey]; simpl.
  - repeat split; try done. by intros r [= <-].
  - repeat split; try done. intros e [= <-]. by right; right.
Qed.

Lemma unsupported_solver_returns_None_witness :
  let Q := VAtom (AQobj 0) in
  let f := VAtom (AFunction 0) in
  let s := VAtom (AStr "sin(t)") in
  "es" ≠ "me" ∧ "es" ≠ "mc"
  ∧ _ode_checks (VList [VList [Q]]) (VList []) None "es"
    = Raise (TypeError msg_H)
  ∧ _ode_checks (VList [Q]) (VList [VList [Q; Q]]) None "es"
    = Raise (TypeError msg_c)
  ∧ _ode_checks (VList [VList [Q; f]; VList [Q; s]]) (VList []) None "es"
    = Raise (TypeError msg_mix)
  ∧ _ode_checks (VList [VList [Q; s]]) (VList []) None "es"
    = Raise (Exception msg_no_cython)
  ∧ _ode_checks (VList [VList [Q; s]]) (VList [Q]) (Some "0.29") "es"
    = Ok RNone
  ∧ _ode_checks (VList [VList [Q; f]]) (VList [Q]) None "es" = Ok RNone.
Proof.
  intros Q f s.
  assert ("es" ≠ "me") as Hme by done.
  assert ("es" ≠ "mc") as Hmc by done.
  split; [done|]. split; [done|].
  split.
  { by destruct (unsupported_solver_returns_None
                   (VList [VList [Q]]) (VList []) None "es" Hme Hmc)
      as [-> _]. }
  split.
  { by destruct (unsupported_solver_returns_None
                   (VList [Q]) (VList [VList [Q; Q]]) None "es" Hme Hmc)
      as [-> _]. }
  split.
  { by destruct (unsupported_solver_returns_None
                   (VList [VList [Q; f]; VList [Q; s]]) (VList []) None "es"
                   Hme Hmc) as [-> _]. }
  split.
  { by destruct (unsupported_solver_returns_None
                   (VList [VList [Q; s]]) (VList []) None "es" Hme Hmc)
      as [-> _]. }
  split.
  { by destruct (unsupported_solver_returns_None
                   (VList [VList [Q; s]]) (VList [Q]) (Some "0.29") "es"
                   Hme Hmc) as [-> _]. }
  by destruct (unsupported_solver_returns_None
                 (VList [VList [Q; f]]) (VList [Q]) None "es" Hme Hmc)
    as [-> _].
Defined.

End classifier_claims.

(** ** The formatting operator *)

Section formatting.

Lemma append_nil_r (s : string) : s ++ "" = s.
Proof.
  induction s as [|a s IH]; [done|].
  change (String a s ++ "") with (String a (s ++ "")). by rewrite IH.
Qed.

(** The synthesized names are [_td_array_0], [_td_array_1], ... *)
Lemma td_array_name_eq n :
  td_array_name n = Ok ("_td_array_" ++ pretty (Z.of_nat n)).
Proof.
  unfold td_array_name; simpl. by rewrite append_nil_r.
Qed.

Lemma td_array_name_inj i j name :
  td_array_name i = Ok name → td_array_name j = Ok name → i = j.
Proof.
  rewrite !td_array_name_eq. intros [= <-] [= Heq].
  apply (inj (String.append _)), (inj pretty) in Heq. lia.
Qed.

(** The [%f] conversion of a number, with the conversion of an [int] to a
    [float] it starts with. *)
Lemma convert_f x :
  convert "f" (ANum x) = '(m, e) ← to_float x; Ok (format_f m e).
Proof. done. Qed.

(** The expression string, by its pieces. *)
Lemma td_str_eq times name :
  td_str times name =
    t_end ← getitem_last times;
    '(m, e) ← to_float t_end;
    Ok ("(0 if (t > " ++ format_f m e ++ ") else " ++ name ++ "[round("
        ++ pretty (Z.of_nat (length times) - 1)%Z ++ " * (t/"
        ++ format_f m e ++ "))])").
Proof.
  unfold td_str. destruct (getitem_last times) as [t|err]; [|done].
  change (Ok t ≫= ?f) with (f t). cbv beta.
  cbn [str_mod Ascii.eqb Bool.eqb]. rewrite !convert_f.
  destruct (to_float t) as [[m e]|err]; [|done].
  reflexivity.
Qed.

Lemma to_float_modelled x what : to_float x ≠ Raise (Unmodelled what).
Proof.
  destruct x as [z|m e]; [|discriminate].
  unfold to_float, float_of_int. destruct (Z.leb _ _); discriminate.
Qed.

Lemma td_array_name_modelled n what :
  td_array_name n ≠ Raise (Unmodelled what).
Proof. rewrite td_array_name_eq. discriminate. Qed.

Lemma td_str_modelled times name what :
  td_str times name ≠ Raise (Unmodelled what).
Proof.
  rewrite td_str_eq. unfold getitem_last.
  destruct (list.last times) as [t|]; [|discriminate].
  change (Ok t ≫= ?f) with (f t). cbv beta.
  pose proof (to_float_modelled t what) as Ht.
  destruct (to_float t) as [[m e]|err]; [discriminate|].
  intros [= ->]. done.
Qed.

(** On a grid that ends with a float, or with an [int] below [2^53], the
    expression string is built: the conversion raises for huge [int]s
    only. *)
Lemma float_of_int_small z :
  (Z.abs z < 2 ^ 53)%Z → float_of_int z = Ok (z, 0%Z).
Proof.
  intros Hz. unfold float_of_int.
  assert (Z.log2 (Z.abs z) < 53)%Z as Hlog.
  { destruct (decide (Z.abs z = 0%Z)) as [->|Hne]; [done|].
    apply Z.log2_lt_pow2; lia. }
  replace (Z.max 0 (Z.log2 (Z.abs z) + 1 - 53)) with 0%Z by lia.
  change (2 ^ 0)%Z with 1%Z. unfold round_half_even.
  rewrite Z.div_1_r, Z.mod_1_r. change (1 <? 2 * 0)%Z with false.
  change (1 =? 2 * 0)%Z with false. cbv [orb andb].
  rewrite Z.mul_1_r.
  destruct (Z.leb_spec (2 ^ 1024) (Z.abs z)) as [Hbig|_].
  - exfalso. assert (2 ^ 53 < 2 ^ 1024)%Z by (by apply Z.pow_lt_mono_r). lia.
  - f_equal. f_equal. lia.
Qed.

End formatting.

(** ** The array wrapper, [_td_wrap_array_str] *)

Section wrapper.

Implicit Types (l new : list val) (x : val) (n p : nat)
  (args_new : gmap string val) (times : list num).

Lemma rank_0 l : rank l 0 = 0.
Proof. done. Qed.

Lemma rank_nil p : rank [] p = 0.
Proof. by destruct p. Qed.

Lemma rank_cons_S x l p :
  rank (x :: l) (S p) = (if array_term x then 1 else 0) + rank l p.
Proof.
  unfold rank. simpl. rewrite filter_cons.
  destruct (array_term x); by case_decide.
Qed.

(** The shape of an array-encoded term that unpacks: a pair. *)
Lemma array_term_pair x0 x1 :
  array_term (VList [x0; x1]) = isinstance_ndarray x1.
Proof. done. Qed.

(** One step of the loop on a term it copies. *)
Lemma wrap_terms_keep times x l n new args_new :
  array_term x = false → indexable x = true →
  wrap_terms times (x :: l) n new args_new =
    wrap_terms times l n (new ++ [x])%list args_new.
Proof.
  destruct x as [a|[|x0 [|x1 items]]|d]; try done.
  simpl. by intros ->.
Qed.

(** One step of the loop on an array-encoded pair. *)
Lemma wrap_terms_array times x0 x1 l n new args_new :
  isinstance_ndarray x1 = true →
  wrap_terms times (VList [x0; x1] :: l) n new args_new =
    name ← td_array_name n;
    H_td_str ← td_str times name;
    wrap_terms times l (S n)
      (new ++ [VList [x0; VAtom (AStr H_td_str)]])%list
      (<[name := x1]> args_new).
Proof. simpl. by intros ->. Qed.

(** A step that does not raise is one of the two. *)
Lemma wrap_terms_cons_inv times x l n new args_new r :
  wrap_terms times (x :: l) n new args_new = Ok r →
  (array_term x = false ∧ indexable x = true)
  ∨ (∃ x0 x1, x = VList [x0; x1] ∧ isinstance_ndarray x1 = true).
Proof.
  destruct x as [a|[|x0 [|x1 items]]|d]; try (by left); try done.
  simpl. destruct (isinstance_ndarray x1) eqn:Hx1; [|by left].
  destruct items as [|x2 items]; [right; eauto|done].
Qed.

(** The loop copies a list without array-encoded terms. *)
Lemma wrap_terms_id times l n new args_new :
  Forall (λ x, array_term x = false ∧ indexable x = true) l →
  wrap_terms times l n new args_new = Ok (n, (new ++ l)%list, args_new).
Proof.
  intros Hl. revert new. induction Hl as [|x l [Hx Hi] _ IH]; intros new.
  - simpl. by rewrite app_nil_r.
  - rewrite wrap_terms_keep, IH by done. by rewrite <- app_assoc.
Qed.

(** What the loop has done when it ends: the counter has advanced by the
    number of array-encoded terms; the list built has grown by one term for
    each term read, the same term unless it is array-encoded; an
    array-encoded term [[op, arr]] at position [p] has become
    [[op, string]], the string built on the name of index
    [n + rank l p], and [args_new] binds that name to [arr]; the keys of
    [args_new] that are no name of an index in [n, n') are as before. *)
Lemma wrap_terms_spec times l n new args_new n' new' args_new' :
  wrap_terms times l n new args_new = Ok (n', new', args_new') →
  n' = n + rank l (length l)
  ∧ ∃ l2, new' = (new ++ l2)%list ∧ length l2 = length l
    ∧ Forall (λ x, array_term x = false ∧ indexable x = true) l2
    ∧ (∀ p x, l !! p = Some x → array_term x = false → l2 !! p = Some x)
    ∧ (∀ p x, l !! p = Some x → array_term x = true →
         ∃ op arr name s,
           x = VList [op; arr]
           ∧ td_array_name (n + rank l p) = Ok name
           ∧ td_str times name = Ok s
           ∧ l2 !! p = Some (VList [op; VAtom (AStr s)])
           ∧ args_new' !! name = Some arr)
    ∧ (∀ k, (∀ i, n ≤ i < n' → td_array_name i ≠ Ok k) →
            args_new' !! k = args_new !! k).
Proof.
  revert n new args_new.
  induction l as [|x l IH]; intros n new args_new Hw.
  - injection Hw as <- <- <-. split; [by rewrite rank_nil|].
    exists []. rewrite app_nil_r. repeat split; try done.
  - destruct (wrap_terms_cons_inv _ _ _ _ _ _ _ Hw)
      as [[Hx Hi] | (x0 & x1 & -> & Hx1)].
    + rewrite wrap_terms_keep in Hw by done.
      apply IH in Hw as (-> & l2 & -> & Hlen & Hall & Hkeep & Harr & Hargs).
      split. { simpl length. rewrite rank_cons_S, Hx. lia. }
      exists (x :: l2). rewrite <- app_assoc. split; [done|].
      split; [by simpl; rewrite Hlen|]. split; [by constructor|].
      split; [|split].
      * intros [|p] y Hy Hay; simpl in *; [done|]. by eapply Hkeep.
      * intros [|p] y Hy Hay; simpl in Hy.
        { injection Hy as <-. congruence. }
        destruct (Harr p y Hy Hay) as (op & arr & name & s & ? & ? & ? & ? & ?).
        exists op, arr, name, s. rewrite rank_cons_S, Hx. simpl.
        by replace (n + (0 + rank l p)) with (n + rank l p) by lia.
      * intros k Hk. apply Hargs. intros i Hi'. by apply Hk.
    + rewrite wrap_terms_array in Hw by done.
      apply bind_Ok in Hw as (name & Hname & Hw).
      apply bind_Ok in Hw as (s & Hs & Hw).
      apply IH in Hw as (-> & l2 & -> & Hlen & Hall & Hkeep & Harr & Hargs).
      assert (array_term (VList [x0; x1]) = true) as Hx by done.
      split. { simpl length. rewrite rank_cons_S, Hx. lia. }
      exists (VList [x0; VAtom (AStr s)] :: l2). rewrite <- app_assoc.
      split; [done|]. split; [by simpl; rewrite Hlen|].
      split; [by constructor|]. split; [|split].
      * intros [|p] y Hy Hay; simpl in Hy.
        { injection Hy as <-. congruence. }
        by eapply Hkeep.
      * intros [|p] y Hy Hay; simpl in Hy.
        { injection Hy as <-. exists x0, x1, name, s.
          rewrite rank_0, Nat.add_0_r. repeat split; try done.
          rewrite Hargs; [by rewrite lookup_insert_eq|].
          intros i Hi Hi'. pose proof (td_array_name_inj _ _ _ Hi' Hname). lia. }
        destruct (Harr p y Hy Hay) as (op & arr & name' & s' & ? & ? & ? & ? & ?).
        exists op, arr, name', s'. rewrite rank_cons_S, Hx. simpl.
        by replace (n + S (rank l p)) with (S n + rank l p) by lia.
      * intros k Hk. rewrite Hargs.
        -- apply lookup_insert_ne. intros <-. apply (Hk n); [lia|done].
        -- intros i Hi'. apply Hk. lia.
Qed.

End wrapper.

Section wrapper_claims.

Implicit Types (H c args : val) (times : list num)
  (syn : gmap string val).

(** The two passes, taken apart: the collapse-operator pass starts from
    the counter and the mapping the Hamiltonian pass ends with. *)
Lemma wrap_passes_inv H c times H' c' syn :
  wrap_passes H c times = Ok (H', c', syn) →
  ∃ n1 a1 n2,
    match H with
    | VList l =>
        ∃ new, wrap_terms times l 0 [] ∅ = Ok (n1, new, a1) ∧ H' = VList new
    | _ => n1 = 0 ∧ a1 = ∅ ∧ H' = H
    end
    ∧ match c with
      | VList l =>
          ∃ new, wrap_terms times l n1 [] a1 = Ok (n2, new, syn)
                 ∧ c' = VList new
      | _ => n2 = n1 ∧ syn = a1 ∧ c' = c
      end.
Proof.
  unfold wrap_passes, wrap_pass. intros Hw.
  apply bind_Ok in Hw as ([[n1 H1] a1] & HH & Hw).
  apply bind_Ok in Hw as ([[n2 c2] a2] & Hc & Hw).
  injection Hw as <- <- <-. exists n1, a1, n2. split.
  - destruct H as [a|l|d]; try by injection HH as <- <- <-.
    apply bind_Ok in HH as ([[n new] a] & Hl & HH).
    injection HH as <- <- <-. eauto.
  - destruct c as [a|l|d]; try by injection Hc as <- <- <-.
    apply bind_Ok in Hc as ([[n new] a] & Hl & Hc).
    injection Hc as <- <- <-. eauto.
Qed.

(** Without array-encoded terms, the passes copy the two lists and
    synthesize nothing. *)
Lemma wrap_passes_id H c times :
  Forall (λ x, array_term x = false ∧ indexable x = true) (terms H) →
  Forall (λ x, array_term x = false ∧ indexable x = true) (terms c) →
  wrap_passes H c times = Ok (H, c, ∅).
Proof.
  intros HH Hc. unfold wrap_passes, wrap_pass.
  destruct H as [a|l|d], c as [a'|l'|d']; simpl in *;
    repeat (rewrite wrap_terms_id by done; simpl); done.
Qed.

(** The terms of what the passes return hold no array. *)
Lemma wrap_passes_no_arrays H c times H' c' syn :
  wrap_passes H c times = Ok (H', c', syn) →
  Forall (λ x, array_term x = false ∧ indexable x = true) (terms H')
  ∧ Forall (λ x, array_term x = false ∧ indexable x = true) (terms c').
Proof.
  intros (n1 & a1 & n2 & HH & Hc)%wrap_passes_inv. split.
  - destruct H as [a|l|d]; try by destruct HH as (_ & _ & ->).
    destruct HH as (new & (_ & l2 & -> & _ & Hall & _)%wrap_terms_spec & ->).
    done.
  - destruct c as [a|l|d]; try by destruct Hc as (_ & _ & ->).
    destruct Hc as (new & (_ & l2 & -> & _ & Hall & _)%wrap_terms_spec & ->).
    done.
Qed.

(** The merge of a mapping with nothing synthesized gives the caller's
    value back, or the empty mapping when there is none. *)
Lemma merge_args_empty args b :
  truthy args = Ok b →
  merge_args args ∅ = Ok (if b then args else VDict ∅).
Proof.
  intros Hb. unfold merge_args. rewrite Hb. simpl.
  destruct b; [|done].
  destruct args as [a|l|d]; try done. by rewrite (right_id_L ∅ (∪)).
Qed.

(** What the merge returns is left as it is by a merge with nothing. *)
Lemma merge_args_again args syn args' :
  merge_args args syn = Ok args' → merge_args args' ∅ = Ok args'.
Proof.
  assert (∀ d : gmap string val, merge_args (VDict d) ∅ = Ok (VDict d)) as Hd.
  { intros d. unfold merge_args. simpl. case_bool_decide as Hd; simpl.
    - by rewrite Hd.
    - by rewrite (right_id_L ∅ (∪)). }
  unfold merge_args at 1. intros Hm.
  apply bind_Ok in Hm as (b & Hb & Hm).
  destruct b; [|by injection Hm as <-].
  destruct args as [a|l|d].
  - case_bool_decide; [|done]. injection Hm as <-.
    by rewrite (merge_args_empty _ true).
  - case_bool_decide; [|done]. injection Hm as <-.
    by rewrite (merge_args_empty _ true).
  - by injection Hm as <-.
Qed.


(** The string-like partition of a list without array terms holds the
    indices of pairs with a string only. *)
Lemma p_str_strings msg l p k :
  Forall (λ x, array_term x = false ∧ indexable x = true) l →
  check_terms msg 0 l no_parts = Ok p → k ∈ p_str p →
  ∃ op s, l !! k = Some (VList [op; VAtom (AStr s)]).
Proof.
  intros Hall Hp Hk. destruct (existsb malformed_term l) eqn:Hl.
  { by rewrite check_terms_err in Hp. }
  rewrite check_terms_ok in Hp by done. injection Hp as <-. simpl in Hk.
  apply elem_of_indices_from in Hk as (x & _ & Hx & Hs).
  rewrite Nat.sub_0_r in Hx.
  rewrite Forall_lookup in Hall. destruct (Hall _ _ Hx) as [Ha _].
  destruct x as [a|[|x0 [|x1 [|? ?]]]|d]; try done.
  simpl in Ha, Hs. rewrite Ha, orb_false_r in Hs.
  apply andb_true_iff in Hs as [_ Hs].
  destruct x1 as [[]| |]; try done. eauto.
Qed.

(** C3, as amended.  For a Hamiltonian list whose first term carries an
    array (of length 5 or any other) and whose second term is a bare
    operator, with no collapse operator, the time grid [0,1,2,3,4] (of
    [int]s or of [float]s) and empty extra parameters,
    [_td_wrap_array_str] returns the Hamiltonian with the array replaced
    by the string
    ["(0 if (t > 4.000000) else _td_array_0[round(4 * (t/4.000000))])"]
    ([%f] prints six digits after the point), the second term unchanged,
    and the mapping with the single entry of ["_td_array_0"], bound to the
    array. *)
Theorem array_scenario (opA opB : nat) (arr : list num) :
  let expr :=
    "(0 if (t > 4.000000) else _td_array_0[round(4 * (t/4.000000))])" in
  let H := VList [VList [VAtom (AQobj opA); VAtom (ANdarray arr)];
                  VAtom (AQobj opB)] in
  let H' := VList [VList [VAtom (AQobj opA); VAtom (AStr expr)];
                   VAtom (AQobj opB)] in
  let out := Ok (H', VList [], VDict {[ "_td_array_0" := VAtom (ANdarray arr) ]}) in
  _td_wrap_array_str H (VList []) (VDict ∅)
    [NInt 0; NInt 1; NInt 2; NInt 3; NInt 4] = out
  ∧ _td_wrap_array_str H (VList []) (VDict ∅)
      [NFloat 0 0; NFloat 1 0; NFloat 1 1; NFloat 3 0; NFloat 1 2] = out.
Proof. split; reflexivity. Qed.

(** C3, as stated, fails: the string returned is not
    ["(0 if (t > 4.0) else _td_array_0[round(4 * (t/4.0))])"]. *)
Lemma array_scenario_not_short_float :
  let arr := [NInt 0; NInt 1; NInt 4; NInt 9; NInt 16] in
  _td_wrap_array_str
    (VList [VList [VAtom (AQobj 0); VAtom (ANdarray arr)]; VAtom (AQobj 1)])
    (VList []) (VDict ∅) [NInt 0; NInt 1; NInt 2; NInt 3; NInt 4]
  ≠ Ok (VList [VList [VAtom (AQobj 0);
                      VAtom (AStr "(0 if (t > 4.0) else _td_array_0[round(4 * (t/4.0))])")];
               VAtom (AQobj 1)],
        VList [], VDict {[ "_td_array_0" := VAtom (ANdarray arr) ]}).
Proof. intros arr. vm_compute. intros [=]. Qed.

(** C5: on an input for which [_td_wrap_array_str] returns, what it
    returns holds no array-encoded term; the string-like partitions that
    [_ode_checks] computes on it hold the indices of terms with a genuine
    string only; and [_td_wrap_array_str] on what it returned returns the
    same three values. *)
Theorem wrap_idempotent H c args times H' c' args' :
  _td_wrap_array_str H c args times = Ok (H', c', args') →
  existsb array_term (terms H') = false
  ∧ existsb array_term (terms c') = false
  ∧ (∀ h k, check_H H' = Ok h → k ∈ p_str h →
       ∃ op s, terms H' !! k = Some (VList [op; VAtom (AStr s)]))
  ∧ (∀ pc k, check_c_ops c' = Ok pc → k ∈ p_str pc →
       ∃ op s, terms c' !! k = Some (VList [op; VAtom (AStr s)]))
  ∧ _td_wrap_array_str H' c' args' times = Ok (H', c', args').
Proof.
  unfold _td_wrap_array_str at 1. intros Hw.
  apply bind_Ok in Hw as ([[H1 c1] syn] & Hp & Hw).
  apply bind_Ok in Hw as (a1 & Hm & Hw). injection Hw as <- <- <-.
  destruct (wrap_passes_no_arrays _ _ _ _ _ _ Hp) as [HH Hc].
  assert (∀ l, Forall (λ x, array_term x = false ∧ indexable x = true) l →
               existsb array_term l = false) as Hex.
  { intros l Hl. apply not_true_iff_false. intros Hl'.
    apply existsb_exists in Hl' as (x & Hx & Hax).
    rewrite Forall_forall in Hl. destruct (Hl x Hx). congruence. }
  split; [by apply Hex|]. split; [by apply Hex|]. split; [|split].
  - intros h k Hh Hk. destruct H1 as [a|l|d].
    + destruct a; unfold check_H in Hh; simpl in Hh; try done;
        injection Hh as <-; by apply elem_of_nil in Hk.
    + rewrite check_H_list in Hh. by eapply p_str_strings.
    + done.
  - intros pc k Hpc Hk. destruct c1 as [a|l|d]; try done.
    simpl in Hpc. by eapply p_str_strings.
  - unfold _td_wrap_array_str. rewrite wrap_passes_id by done. simpl.
    by rewrite (merge_args_again _ _ _ Hm).
Qed.

Lemma wrap_idempotent_witness :
  let arr := VAtom (ANdarray [NInt 0; NInt 1; NInt 4]) in
  let expr := VAtom (AStr "(0 if (t > 2.000000) else _td_array_0[round(2 * (t/2.000000))])") in
  let H := VList [VList [VAtom (AQobj 0); arr]; VAtom (AQobj 1)] in
  let H' := VList [VList [VAtom (AQobj 0); expr]; VAtom (AQobj 1)] in
  let out := (H', VList [], VDict {[ "_td_array_0" := arr ]}) in
  _td_wrap_array_str H (VList []) (VAtom ANone) [NInt 0; NInt 1; NInt 2] = Ok out
  ∧ _td_wrap_array_str H' (VList []) (VDict {[ "_td_array_0" := arr ]})
      [NInt 0; NInt 1; NInt 2] = Ok out.
Proof.
  intros arr expr H H' out. split; [reflexivity|].
  apply (wrap_idempotent H (VList []) (VAtom ANone) [NInt 0; NInt 1; NInt 2]).
  reflexivity.
Defined.

(** C7: with [syn] the mapping the two passes synthesize,
    - when both [syn] and the caller's [args] are non-empty and [args] is
      not a [dict], the call fails with the error on the format of the
      parameters;
    - when both are non-empty and [args] is a [dict], the result is the
      two merged, the caller's entry taken on a key they share;
    - when the caller supplied no parameters ([args] is empty, or
      [None]), the result is exactly [syn]. *)
Theorem merge_policy H c args times H' c' syn :
  wrap_passes H c times = Ok (H', c', syn) →
  (truthy args = Ok true → isinstance_dict args = false → syn ≠ ∅ →
     _td_wrap_array_str H c args times = Raise (ValueError msg_args)
     ∧ IncompatibleParameterFormat (ValueError msg_args))
  ∧ (∀ d, args = VDict d → d ≠ ∅ → syn ≠ ∅ →
       ∃ m, _td_wrap_array_str H c args times = Ok (H', c', VDict m)
            ∧ (∀ k v, d !! k = Some v → m !! k = Some v)
            ∧ (∀ k, d !! k = None → m !! k = syn !! k))
  ∧ (truthy args = Ok false →
       _td_wrap_array_str H c args times = Ok (H', c', VDict syn)).
Proof.
  intros Hp. unfold _td_wrap_array_str, merge_args. rewrite Hp. simpl.
  split; [|split].
  - intros -> Hd Hs. split; [|done]. simpl.
    destruct args as [a|l|d]; try done; by rewrite bool_decide_eq_false_2.
  - intros d -> Hd Hs. simpl. rewrite bool_decide_eq_false_2 by done. simpl.
    exists (d ∪ syn). split; [done|]. split.
    + intros k v Hk. by apply lookup_union_Some_l.
    + intros k Hk. by apply lookup_union_r.
  - by intros ->.
Qed.

Lemma merge_policy_witness :
  let arr := VAtom (ANdarray [NInt 0; NInt 1; NInt 4]) in
  let H := VList [VList [VAtom (AQobj 0); arr]] in
  _td_wrap_array_str H (VList []) (VList [VAtom (ANum (NInt 1))])
    [NInt 0; NInt 1; NInt 2] = Raise (ValueError msg_args)
  ∧ (∃ m, _td_wrap_array_str H (VList [])
            (VDict {[ "_td_array_0" := VAtom ANone ]}) [NInt 0; NInt 1; NInt 2]
          = Ok (VList [VList [VAtom (AQobj 0);
                  VAtom (AStr "(0 if (t > 2.000000) else _td_array_0[round(2 * (t/2.000000))])")]],
                VList [], VDict m)
          ∧ m !! "_td_array_0" = Some (VAtom ANone)).
Proof.
  intros arr H.
  destruct (merge_policy H (VList []) (VList [VAtom (ANum (NInt 1))])
              [NInt 0; NInt 1; NInt 2]
              (VList [VList [VAtom (AQobj 0);
                 VAtom (AStr "(0 if (t > 2.000000) else _td_array_0[round(2 * (t/2.000000))])")]])
              (VList []) {[ "_td_array_0" := arr ]} eq_refl)
    as (Herr & _ & _).
  destruct (merge_policy H (VList []) (VDict {[ "_td_array_0" := VAtom ANone ]})
              [NInt 0; NInt 1; NInt 2]
              (VList [VList [VAtom (AQobj 0);
                 VAtom (AStr "(0 if (t > 2.000000) else _td_array_0[round(2 * (t/2.000000))])")]])
              (VList []) {[ "_td_array_0" := arr ]} eq_refl)
    as (_ & Hmerge & _).
  split.
  - apply Herr; [reflexivity | reflexivity |].
    intros Hs. apply (f_equal (λ m : gmap string val, m !! "_td_array_0")) in Hs.
    by rewrite lookup_singleton_eq in Hs.
  - destruct (Hmerge {[ "_td_array_0" := VAtom ANone ]} eq_refl)
      as (m & Hm & Hcaller & _).
    + intros Hs. apply (f_equal (λ m : gmap string val, m !! "_td_array_0")) in Hs.
      by rewrite lookup_singleton_eq in Hs.
    + intros Hs. apply (f_equal (λ m : gmap string val, m !! "_td_array_0")) in Hs.
      by rewrite lookup_singleton_eq in Hs.
    + exists m. split; [done|]. apply Hcaller. by rewrite lookup_singleton_eq.
Defined.

(** Without array-encoded terms the call returns its arguments: the two
    specifications, and the caller's parameters when there are some. *)
Lemma wrap_no_arrays H c args times (b : bool) :
  Forall (λ x, array_term x = false ∧ indexable x = true) (terms H) →
  Forall (λ x, array_term x = false ∧ indexable x = true) (terms c) →
  truthy args = Ok b →
  _td_wrap_array_str H c args times
  = Ok (H, c, if b then args else VDict ∅).
Proof.
  intros HH Hc Hb. unfold _td_wrap_array_str.
  rewrite wrap_passes_id by done. simpl.
  by rewrite (merge_args_empty _ _ Hb).
Qed.

(** A loop that ends on a list without array-encoded term has found an
    item 1 in every term that is a list. *)
Lemma wrap_terms_Ok_indexable times (l : list val) n new a r :
  wrap_terms times l n new a = Ok r →
  Forall (λ x, array_term x = false) l →
  Forall (λ x, indexable x = true) l.
Proof.
  intros Hw Hl. revert n new a Hw.
  induction Hl as [|x l Hx _ IH]; intros n new a Hw; [done|].
  destruct (wrap_terms_cons_inv _ _ _ _ _ _ _ Hw)
    as [[_ Hi] | (x0 & x1 & -> & Hx1)].
  - rewrite wrap_terms_keep in Hw by done. constructor; [done|]. eauto.
  - rewrite array_term_pair in Hx. congruence.
Qed.

(** A call that returns on an input without array-encoded term has read
    an item 1 in every list term and a truth value of the parameters. *)
Lemma wrap_Ok_indexable H c args times r :
  _td_wrap_array_str H c args times = Ok r →
  Forall (λ x, array_term x = false) (terms H) →
  Forall (λ x, array_term x = false) (terms c) →
  Forall (λ x, indexable x = true) (terms H)
  ∧ Forall (λ x, indexable x = true) (terms c)
  ∧ ∃ b, truthy args = Ok b.
Proof.
  unfold _td_wrap_array_str. intros Hw HH Hc.
  apply bind_Ok in Hw as ([[H' c'] syn] & Hp & Hw).
  apply bind_Ok in Hw as (args_out & Hm & _).
  apply wrap_passes_inv in Hp as (n1 & a1 & n2 & HH' & Hc').
  split; [|split].
  - destruct H as [a|l|d]; [by constructor| |by constructor].
    destruct HH' as (new & Hl & _). by eapply wrap_terms_Ok_indexable.
  - destruct c as [a|l|d]; [by constructor| |by constructor].
    destruct Hc' as (new & Hl & _). by eapply wrap_terms_Ok_indexable.
  - unfold merge_args in Hm. apply bind_Ok in Hm as (b & Hb & _). eauto.
Qed.

(** C9: the names are those of a counter that starts at 0 and advances by
    one at each array-encoded term, through the Hamiltonian first and the
    collapse operators next: the array term at position [p] of the
    Hamiltonian is rewritten with the name of index [rank H p], the
    number of array terms before it, and that name is bound to its array;
    the array term at position [p] of the collapse operators gets index
    [rank H (length H) + rank c p]; two indices with the same name are
    the same. *)
Theorem synthesized_names H c times H' c' syn :
  wrap_passes H c times = Ok (H', c', syn) →
  (∀ p x, terms H !! p = Some x → array_term x = true →
     ∃ op arr name s,
       x = VList [op; arr]
       ∧ td_array_name (rank (terms H) p) = Ok name
       ∧ td_str times name = Ok s
       ∧ terms H' !! p = Some (VList [op; VAtom (AStr s)])
       ∧ syn !! name = Some arr)
  ∧ (∀ p x, terms c !! p = Some x → array_term x = true →
       ∃ op arr name s,
         x = VList [op; arr]
         ∧ td_array_name
             (rank (terms H) (length (terms H)) + rank (terms c) p) = Ok name
         ∧ td_str times name = Ok s
         ∧ terms c' !! p = Some (VList [op; VAtom (AStr s)])
         ∧ syn !! name = Some arr)
  ∧ (∀ i, td_array_name i = Ok ("_td_array_" ++ pretty (Z.of_nat i)))
  ∧ (∀ i j name,
       td_array_name i = Ok name → td_array_name j = Ok name → i = j).
Proof.
  intros (n1 & a1 & n2 & HH & Hc)%wrap_passes_inv.
  assert (n1 = rank (terms H) (length (terms H))
          ∧ ∀ p x, terms H !! p = Some x → array_term x = true →
              ∃ op arr name s,
                x = VList [op; arr]
                ∧ td_array_name (rank (terms H) p) = Ok name
                ∧ td_str times name = Ok s
                ∧ terms H' !! p = Some (VList [op; VAtom (AStr s)])
                ∧ a1 !! name = Some arr) as [Hn1 HH'].
  { destruct H as [a|l|d]; try (by destruct HH as (-> & _ & _)).
    destruct HH as (new & (-> & l2 & -> & _ & _ & _ & Harr & _)%wrap_terms_spec & ->).
    done. }
  assert (n1 ≤ n2
          ∧ (∀ k, (∀ i, n1 ≤ i < n2 → td_array_name i ≠ Ok k) →
                  syn !! k = a1 !! k)
          ∧ ∀ p x, terms c !! p = Some x → array_term x = true →
              ∃ op arr name s,
                x = VList [op; arr]
                ∧ td_array_name (n1 + rank (terms c) p) = Ok name
                ∧ td_str times name = Ok s
                ∧ terms c' !! p = Some (VList [op; VAtom (AStr s)])
                ∧ syn !! name = Some arr) as (Hle & Hkeep & Hc').
  { destruct c as [a|l|d]; try (by destruct Hc as (-> & -> & _)).
    destruct Hc as (new & (-> & l2 & -> & _ & _ & _ & Harr & Hk)%wrap_terms_spec & ->).
    split; [lia|]. done. }
  split; [|split; [|split]].
  - intros p x Hx Hax.
    destruct (HH' p x Hx Hax) as (op & arr & name & s & ? & Hname & ? & ? & ?).
    exists op, arr, name, s. repeat split; try done.
    rewrite Hkeep; [done|]. intros i Hi Hi'.
    pose proof (td_array_name_inj _ _ _ Hi' Hname) as ->.
    assert (rank (terms H) p < rank (terms H) (length (terms H))); [|lia].
    apply lookup_lt_Some in Hx as Hp.
    unfold rank. rewrite firstn_all.
    rewrite <- (take_drop_middle _ _ _ Hx) at 2.
    rewrite list.filter_app, filter_cons, decide_True by done.
    rewrite length_app. simpl. lia.
  - by rewrite <- Hn1.
  - apply td_array_name_eq.
  - apply td_array_name_inj.
Qed.

Lemma synthesized_names_witness :
  let arr := VAtom (ANdarray [NInt 0; NInt 1; NInt 4]) in
  let H := VList [VAtom (AQobj 0); VList [VAtom (AQobj 1); arr]] in
  let c := VList [VList [VAtom (AQobj 2); arr]; VList [VAtom (AQobj 3); arr]] in
  ∃ H' c' syn,
    wrap_passes H c [NInt 0; NInt 1; NInt 2] = Ok (H', c', syn)
    ∧ ∃ op arr' name s,
        VList [VAtom (AQobj 3); arr] = VList [op; arr']
        ∧ td_array_name (1 + 1) = Ok name
        ∧ td_str [NInt 0; NInt 1; NInt 2] name = Ok s
        ∧ terms c' !! 1 = Some (VList [op; VAtom (AStr s)])
        ∧ syn !! name = Some arr'.
Proof.
  intros arr H c.
  destruct (wrap_passes H c [NInt 0; NInt 1; NInt 2]) as [[[H' c'] syn]|e] eqn:Hw;
    [|by vm_compute in Hw].
  exists H', c', syn. split; [done|].
  destruct (synthesized_names H c [NInt 0; NInt 1; NInt 2] H' c' syn Hw)
    as (_ & Hc & _).
  apply (Hc 1 (VList [VAtom (AQobj 3); arr])); reflexivity.
Defined.

End wrapper_claims.

(** ** The array wrapper over the object store *)

Section store.

Implicit Types (σ : gmap Store.loc Store.obj) (r : Store.ref) (v : val)
  (l : Store.loc) (times : list num).

(** *** References and the values they stand for *)

Lemma repr_mono σ σ' :
  σ ⊆ σ' → ∀ r v, Store.repr σ r v → Store.repr σ' r v.
Proof.
  intros Hsub. fix IH 3.
  intros r v [a | l rs vs Hl Hall | l rd vd Hl Hall].
  - constructor.
  - apply Store.repr_list with rs; [by eapply lookup_weaken|].
    clear Hl. revert rs vs Hall. fix IHl 3.
    intros rs vs [|r0 v0 rs' vs' Hr Hrest]; constructor;
      [apply IH, Hr | apply IHl, Hrest].
  - apply Store.repr_dict with rd; [by eapply lookup_weaken|].
    intros k. destruct (Hall k) as [r0 v0 Hr|]; constructor. apply IH, Hr.
Qed.

Lemma repr_atom_inv σ r a : Store.repr σ r (VAtom a) → r = Store.RAtom a.
Proof. by inversion 1. Qed.

Lemma repr_list_inv σ r vs :
  Store.repr σ r (VList vs) →
  ∃ l rs, r = Store.RObj l ∧ σ !! l = Some (Store.OList rs)
          ∧ Forall2 (Store.repr σ) rs vs.
Proof. inversion 1; eauto. Qed.

Lemma repr_dict_inv σ r vd :
  Store.repr σ r (VDict vd) →
  ∃ l rd, r = Store.RObj l ∧ σ !! l = Some (Store.ODict rd)
          ∧ ∀ k, option_Forall2 (Store.repr σ) (rd !! k) (vd !! k).
Proof. inversion 1; eauto. Qed.

(** [isinstance(r, list)] reads what the value is. *)
Lemma as_list_repr σ0 σ r v :
  σ0 ⊆ σ → Store.repr σ0 r v →
  ∃ o, Store.as_list r σ = (Ok o, σ)
       ∧ match v with
         | VList vs => ∃ rs, o = Some rs ∧ Forall2 (Store.repr σ0) rs vs
         | _ => o = None
         end.
Proof.
  intros Hsub Hr. destruct Hr as [a | l rs vs Hl Hall | l rd vd Hl Hall]; simpl.
  - eauto.
  - rewrite (lookup_weaken _ _ _ _ Hl Hsub). eauto.
  - rewrite (lookup_weaken _ _ _ _ Hl Hsub). eauto.
Qed.

Lemma as_dict_repr σ0 σ r v :
  σ0 ⊆ σ → Store.repr σ0 r v →
  ∃ o, Store.as_dict r σ = (Ok o, σ)
       ∧ match v with
         | VDict vd =>
             ∃ rd, o = Some rd
                   ∧ ∀ k, option_Forall2 (Store.repr σ0) (rd !! k) (vd !! k)
         | _ => o = None
         end.
Proof.
  intros Hsub Hr. destruct Hr as [a | l rs vs Hl Hall | l rd vd Hl Hall]; simpl.
  - eauto.
  - rewrite (lookup_weaken _ _ _ _ Hl Hsub). eauto.
  - rewrite (lookup_weaken _ _ _ _ Hl Hsub). eauto.
Qed.

Lemma isinstance_ndarray_repr σ r v :
  Store.repr σ r v → Store.isinstance_ndarray r = isinstance_ndarray v.
Proof. by destruct 1. Qed.

(** The truth value of a reference is that of its value. *)
Lemma truthy_repr σ0 σ r v :
  σ0 ⊆ σ → Store.repr σ0 r v → Store.truthy r σ = (truthy v, σ).
Proof.
  intros Hsub Hr. destruct Hr as [a | l rs vs Hl Hall | l rd vd Hl Hall]; simpl.
  - done.
  - rewrite (lookup_weaken _ _ _ _ Hl Hsub).
    by destruct Hall.
  - rewrite (lookup_weaken _ _ _ _ Hl Hsub).
    do 3 f_equal. apply bool_decide_ext. split; intros ->.
    + apply map_eq. intros k. specialize (Hall k).
      rewrite lookup_empty in *. by inversion Hall.
    + apply map_eq. intros k. specialize (Hall k).
      rewrite lookup_empty in *. by inversion Hall.
Qed.


(** *** What the computation writes to *)

Lemma keeps_ret σ0 {A} (a : A) (Q : A → Prop) : Q a → keeps σ0 (mret a) Q.
Proof. intros HQ σ Hσ. split; [done|]. by intros ? [= <-]. Qed.

Lemma keeps_lift σ0 {A} (x : result A) : keeps σ0 (Store.lift x) (λ _, True).
Proof. by intros σ Hσ. Qed.

Lemma keeps_bind σ0 {A B} (m : Store.M A) (f : A → Store.M B) Q R :
  keeps σ0 m Q → (∀ a, Q a → keeps σ0 (f a) R) → keeps σ0 (m ≫= f) R.
Proof.
  intros Hm Hf σ Hσ. destruct (Hm σ Hσ) as [Hσ' HQ].
  unfold mbind, Store.M_bind. destruct (m σ) as [[a|e] σ']; simpl in *.
  - by apply Hf; [apply HQ|].
  - done.
Qed.

Lemma keeps_weaken σ0 {A} (m : Store.M A) (Q R : A → Prop) :
  keeps σ0 m Q → (∀ a, Q a → R a) → keeps σ0 m R.
Proof.
  intros Hm HQR σ Hσ. destruct (Hm σ Hσ) as [Hσ' HQ]. split; [done|].
  intros a Ha. by apply HQR, HQ.
Qed.

(** A new object is at a location [σ0] does not hold. *)
Lemma keeps_alloc σ0 o : keeps σ0 (Store.alloc o) (λ l, σ0 !! l = None).
Proof.
  intros σ Hσ. unfold Store.alloc. simpl.
  assert (σ0 !! fresh (dom σ) = None) as Hfresh.
  { apply not_elem_of_dom. intros Hin.
    apply (is_fresh (dom σ)). by eapply subseteq_dom. }
  split; [by apply insert_subseteq_r|]. by intros ? [= <-].
Qed.

Lemma keeps_as_list σ0 r : keeps σ0 (Store.as_list r) (λ _, True).
Proof.
  intros σ Hσ. unfold Store.as_list.
  destruct r as [a|l]; [done|]. by destruct (σ !! l) as [[]|].
Qed.

Lemma keeps_as_dict σ0 r : keeps σ0 (Store.as_dict r) (λ _, True).
Proof.
  intros σ Hσ. unfold Store.as_dict.
  destruct r as [a|l]; [done|]. by destruct (σ !! l) as [[]|].
Qed.

Lemma keeps_truthy σ0 r : keeps σ0 (Store.truthy r) (λ _, True).
Proof.
  intros σ Hσ. unfold Store.truthy.
  destruct r as [a|l]; [done|]. by destruct (σ !! l) as [[]|].
Qed.

(** The three writes keep [σ0] when their target is not one of its
    objects. *)
Lemma keeps_list_append σ0 l r :
  σ0 !! l = None → keeps σ0 (Store.list_append l r) (λ _, True).
Proof.
  intros Hl σ Hσ. unfold Store.list_append.
  destruct (σ !! l) as [[]|]; simpl; try done.
  split; [by apply insert_subseteq_r | done].
Qed.

Lemma keeps_dict_setitem σ0 l k r :
  σ0 !! l = None → keeps σ0 (Store.dict_setitem l k r) (λ _, True).
Proof.
  intros Hl σ Hσ. unfold Store.dict_setitem.
  destruct (σ !! l) as [[]|]; simpl; try done.
  split; [by apply insert_subseteq_r | done].
Qed.

Lemma keeps_dict_update σ0 l d :
  σ0 !! l = None → keeps σ0 (Store.dict_update l d) (λ _, True).
Proof.
  intros Hl σ Hσ. unfold Store.dict_update.
  destruct (σ !! l) as [[]|]; simpl; try done.
  split; [by apply insert_subseteq_r | done].
Qed.

Lemma keeps_wrap_terms σ0 times items n new args_new :
  σ0 !! new = None → σ0 !! args_new = None →
  keeps σ0 (Store.wrap_terms times items n new args_new) (λ _, True).
Proof.
  intros Hnew Hargs. revert n.
  induction items as [|Hk rest IH]; intros n; simpl.
  - by apply keeps_ret.
  - eapply keeps_bind; [apply keeps_as_list|]. intros [its|] _.
    + eapply keeps_bind; [apply keeps_lift|]. intros Hk1 _.
      destruct (Store.isinstance_ndarray Hk1).
      * eapply keeps_bind; [apply keeps_lift|]. intros [H_op H_td] _.
        eapply keeps_bind; [apply keeps_lift|]. intros name _.
        eapply keeps_bind; [apply keeps_lift|]. intros H_td_str _.
        eapply keeps_bind; [by apply keeps_dict_setitem|]. intros [] _.
        eapply keeps_bind; [apply keeps_alloc|]. intros term _.
        eapply keeps_bind; [by apply keeps_list_append|]. intros [] _.
        apply IH.
      * eapply keeps_bind; [by apply keeps_list_append|]. intros [] _.
        apply IH.
    + eapply keeps_bind; [by apply keeps_list_append|]. intros [] _.
      apply IH.
Qed.

Lemma keeps_wrap_pass σ0 times H n new args_new :
  σ0 !! new = None → σ0 !! args_new = None →
  keeps σ0 (Store.wrap_pass times H n new args_new) (λ _, True).
Proof.
  intros Hnew Hargs. unfold Store.wrap_pass.
  eapply keeps_bind; [apply keeps_as_list|]. intros [items|] _.
  - eapply keeps_bind; [by apply keeps_wrap_terms|]. intros n' _.
    by apply keeps_ret.
  - by apply keeps_ret.
Qed.

(** [_td_wrap_array_str] writes to the objects it creates only: whatever
    its arguments, and whether it returns or raises, every object of the
    store it is called in is unchanged when it ends. *)
Lemma td_wrap_keeps σ0 H c_ops args times :
  keeps σ0 (Store._td_wrap_array_str H c_ops args times) (λ _, True).
Proof.
  unfold Store._td_wrap_array_str.
  eapply keeps_bind; [apply keeps_alloc|]. intros H_new HH. simpl in HH.
  eapply keeps_bind; [apply keeps_alloc|]. intros c_new Hc. simpl in Hc.
  eapply keeps_bind; [apply keeps_alloc|]. intros args_new Ha. simpl in Ha.
  eapply keeps_bind; [by apply keeps_wrap_pass|]. intros [n H_out] _.
  eapply keeps_bind; [by apply keeps_wrap_pass|]. intros [n_end c_out] _.
  eapply keeps_bind; [apply keeps_truthy|]. intros [] _.
  - eapply keeps_bind; [apply keeps_as_dict|]. intros [d|] _.
    + eapply keeps_bind; [by apply keeps_dict_update|]. intros [] _.
      by apply keeps_ret.
    + eapply keeps_bind; [apply keeps_truthy|]. intros [] _; simpl.
      * apply keeps_lift.
      * by apply keeps_ret.
  - by apply keeps_ret.
Qed.

End store.

(** *** The store embedding against the value embedding *)

Section refinement.

Implicit Types (σ σb : gmap Store.loc Store.obj) (r : Store.ref) (v : val)
  (l : Store.loc) (times : list num).

Lemma run_bind_Ok {A B} (m : Store.M A) (f : A → Store.M B) σ a σ' :
  m σ = (Ok a, σ') → (m ≫= f) σ = f a σ'.
Proof. intros Hm. unfold mbind, Store.M_bind. by rewrite Hm. Qed.

Lemma run_bind_Raise {A B} (m : Store.M A) (f : A → Store.M B) σ e σ' :
  m σ = (Raise e, σ') → (m ≫= f) σ = (Raise e, σ').
Proof. intros Hm. unfold mbind, Store.M_bind. by rewrite Hm. Qed.

Lemma getitem_repr {A B} (R : A → B → Prop) (xs : list A) (ys : list B) i :
  Forall2 R xs ys →
  match getitem ys i with
  | Ok y => ∃ x, getitem xs i = Ok x ∧ R x y
  | Raise e => getitem xs i = Raise e
  end.
Proof.
  intros Hall. unfold getitem.
  pose proof (proj1 (Forall2_lookup R xs ys) Hall i) as Hi.
  destruct Hi as [x y Hxy|]; eauto.
Qed.

Lemma unpack2_repr {A B} (R : A → B → Prop) (xs : list A) (ys : list B) :
  Forall2 R xs ys →
  match unpack2 ys with
  | Ok (y0, y1) => ∃ x0 x1, unpack2 xs = Ok (x0, x1) ∧ R x0 y0 ∧ R x1 y1
  | Raise e => unpack2 xs = Raise e
  end.
Proof.
  intros Hall.
  destruct Hall as [|x0 y0 xs ys H0 Hall]; [done|].
  destruct Hall as [|x1 y1 xs ys H1 Hall]; [done|].
  destruct Hall as [|x2 y2 xs ys H2 Hall]; simpl; eauto.
Qed.

Lemma pass_step_refl σb σ new args_new : pass_step σb σ σb σ new args_new.
Proof. by repeat split. Qed.

Lemma pass_step_trans σb σ σb1 σ1 σb2 σ2 new args_new :
  (∀ l0, is_Some (σ !! l0) → is_Some (σ1 !! l0)) →
  pass_step σb σ σb1 σ1 new args_new →
  pass_step σb1 σ1 σb2 σ2 new args_new →
  pass_step σb σ σb2 σ2 new args_new.
Proof.
  intros Hdom (Hb1 & Hf1 & Hk1) (Hb2 & Hf2 & Hk2). split; [|split].
  - by etrans.
  - intros l0 Hl0 Hb. apply Hf2; [by apply Hdom|]. by apply Hf1.
  - intros l0 o Hl0 Hn Ha. apply Hk2; try done. by apply Hk1.
Qed.

(** Appending a reference that stands for [x]. *)
Lemma pass_state_append σb σ new args_new vnew a r x :
  pass_state σb σ new args_new vnew a → Store.repr σb r x →
  ∃ σ', Store.list_append new r σ = (Ok (), σ')
        ∧ pass_state σb σ' new args_new (vnew ++ [x])%list a
        ∧ pass_step σb σ σb σ' new args_new
        ∧ ∀ l0, is_Some (σ !! l0) → is_Some (σ' !! l0).
Proof.
  intros (Hsub & Hnew & Hargs & Hne & rnew & rd & Hσn & Hσa & Hrn & Hrd) Hr.
  unfold Store.list_append. rewrite Hσn. eexists. split; [done|].
  split; [|split].
  - split; [by apply insert_subseteq_r|]. repeat split; try done.
    exists (rnew ++ [r])%list, rd. rewrite lookup_insert_eq.
    rewrite lookup_insert_ne by done. repeat split; try done.
    apply Forall2_app; [done|]. by constructor.
  - repeat split; try done. intros l0 o Hl0 Hn _.
    by rewrite lookup_insert_ne.
  - intros l0 Hl0. destruct (decide (new = l0)) as [<-|Hn].
    + by rewrite lookup_insert_eq.
    + by rewrite lookup_insert_ne.
Qed.


(** The loop of the store embedding follows the loop of the value
    embedding: from a state of the pass, on references that stand for the
    terms, it raises the same exception, or returns the same counter in a
    state of the pass for the list and the mapping the value embedding
    returns. *)
Lemma run_lift_bind {A B} (x : result A) (f : A → Store.M B) σ :
  (Store.lift x ≫= f) σ
  = match x with Ok a => f a σ | Raise e => (Raise e, σ) end.
Proof. by destruct x. Qed.

(** Rewriting a term: the entry of [args_new], the new pair, and its
    reference appended to [new]. *)
Lemma pass_state_rewrite σb σ new args_new vnew a name s r_op r_td H_op H_td :
  pass_state σb σ new args_new vnew a →
  Store.repr σb r_op H_op → Store.repr σb r_td H_td →
  ∃ σb' σ',
    (∀ B (k : Store.M B),
       (_ ← Store.dict_setitem args_new name r_td;
        term ← Store.alloc (Store.OList [r_op; Store.RAtom (AStr s)]);
        _ ← Store.list_append new (Store.RObj term);
        k) σ = k σ')
    ∧ pass_state σb' σ' new args_new
        (vnew ++ [VList [H_op; VAtom (AStr s)]])%list (<[name := H_td]> a)
    ∧ pass_step σb σ σb' σ' new args_new
    ∧ ∀ l0, is_Some (σ !! l0) → is_Some (σ' !! l0).
Proof.
  intros (Hsub & Hnew & Hargs & Hne & rnew & rd & Hσn & Hσa & Hrn & Hrd)
    Hrop Hrtd.
  set (σ1 := <[args_new := Store.ODict (<[name := r_td]> rd)]> σ).
  set (t := fresh (dom σ1)).
  set (pair := Store.OList [r_op; Store.RAtom (AStr s)]).
  set (σ2 := <[t := pair]> σ1).
  set (σ3 := <[new := Store.OList (rnew ++ [Store.RObj t])%list]> σ2).
  assert (σ1 !! t = None) as Ht1.
  { apply not_elem_of_dom, is_fresh. }
  assert (t ≠ new) as Htn.
  { intros ->. unfold σ1 in Ht1. rewrite lookup_insert_ne in Ht1 by done.
    congruence. }
  assert (t ≠ args_new) as Hta.
  { intros ->. unfold σ1 in Ht1. by rewrite lookup_insert_eq in Ht1. }
  assert (σ !! t = None) as Ht.
  { unfold σ1 in Ht1. by rewrite lookup_insert_ne in Ht1. }
  assert (σb !! t = None) as Htb.
  { destruct (σb !! t) as [o|] eqn:Hbt; [|done].
    rewrite (lookup_weaken _ _ _ _ Hbt Hsub) in Ht. done. }
  assert (σb ⊆ <[t := pair]> σb) as Hsubb by by apply insert_subseteq.
  exists (<[t := pair]> σb), σ3. split; [|split; [|split]].
  - intros B k.
    erewrite (run_bind_Ok _ _ σ _ σ1).
    2: { unfold Store.dict_setitem. by rewrite Hσa. }
    erewrite (run_bind_Ok _ _ σ1 t σ2); [|done].
    erewrite (run_bind_Ok _ _ σ2 _ σ3); [done|].
    unfold Store.list_append, σ2, σ1.
    rewrite lookup_insert_ne, lookup_insert_ne, Hσn by done. done.
  - split; [|split; [|split; [|split]]]; try done.
    + unfold σ3, σ2, σ1. apply insert_subseteq_r.
      { by rewrite lookup_insert_ne. }
      apply insert_mono. by apply insert_subseteq_r.
    + by rewrite lookup_insert_ne.
    + by rewrite lookup_insert_ne.
    + exists (rnew ++ [Store.RObj t])%list, (<[name := r_td]> rd).
      split; [by unfold σ3; rewrite lookup_insert_eq|]. split.
      { unfold σ3, σ2, σ1.
        rewrite lookup_insert_ne, lookup_insert_ne, lookup_insert_eq; done. }
      split.
      * apply Forall2_app.
        { eapply list.Forall2_impl; [done|]. intros ??. by apply repr_mono. }
        constructor; [|done].
        apply Store.repr_list with [r_op; Store.RAtom (AStr s)].
        { by rewrite lookup_insert_eq. }
        constructor; [by eapply repr_mono|]. constructor; [|done].
        constructor.
      * intros k. destruct (decide (name = k)) as [<-|Hk].
        { rewrite !lookup_insert_eq. constructor. by eapply repr_mono. }
        rewrite !lookup_insert_ne by done.
        destruct (Hrd k); constructor. by eapply repr_mono.
  - split; [done|]. split.
    + intros l0 Hl0 Hb. rewrite lookup_insert_ne; [done|].
      intros <-. rewrite Ht in Hl0. by destruct Hl0.
    + intros l0 o Hl0 Hn Ha. unfold σ3, σ2, σ1.
      rewrite lookup_insert_ne, lookup_insert_ne, lookup_insert_ne; try done.
      intros <-. congruence.
  - intros l0 [o Hl0]. unfold σ3, σ2, σ1.
    destruct (decide (new = l0)) as [<-|?]; [by rewrite lookup_insert_eq|].
    rewrite lookup_insert_ne by done.
    destruct (decide (t = l0)) as [<-|?]; [by rewrite lookup_insert_eq|].
    rewrite lookup_insert_ne by done.
    destruct (decide (args_new = l0)) as [<-|?]; [by rewrite lookup_insert_eq|].
    by rewrite lookup_insert_ne.
Qed.

Local Opaque td_array_name td_str.

(** The loop of the store embedding follows the loop of the value
    embedding: from a state of the pass, on references that stand for the
    terms, it raises the same exception, or returns the same counter in a
    state of the pass for the list and the mapping the value embedding
    returns. *)
Lemma wrap_terms_refines times ls : ∀ rs n new args_new vnew a σb σ,
  pass_state σb σ new args_new vnew a →
  Forall2 (Store.repr σb) rs ls →
  match wrap_terms times ls n vnew a with
  | Ok (n', vnew', a') =>
      ∃ σb' σ',
        Store.wrap_terms times rs n new args_new σ = (Ok n', σ')
        ∧ pass_state σb' σ' new args_new vnew' a'
        ∧ pass_step σb σ σb' σ' new args_new
        ∧ ∀ l0, is_Some (σ !! l0) → is_Some (σ' !! l0)
  | Raise e =>
      ∃ σ', Store.wrap_terms times rs n new args_new σ = (Raise e, σ')
  end.
Proof.
  induction ls as [|x ls IH]; intros rs n new args_new vnew a σb σ Hst Hall.
  { apply Forall2_nil_inv_r in Hall as ->. simpl.
    exists σb, σ. split; [done|]. split; [done|].
    split; [apply pass_step_refl | done]. }
  apply Forall2_cons_inv_r in Hall as (r & rs' & Hr & Hall & ->).
  assert (σb ⊆ σ) as Hsub by apply Hst.
  (* the term is copied *)
  assert (∀ o, Store.as_list r σ = (Ok o, σ) →
            (∀ its Hk1, o = Some its → getitem its 1 = Ok Hk1 →
                        Store.isinstance_ndarray Hk1 = false) →
            (∀ its, o = Some its → ∃ Hk1, getitem its 1 = Ok Hk1) →
            match wrap_terms times ls n (vnew ++ [x])%list a with
            | Ok (n', vnew', a') =>
                ∃ σb' σ',
                  Store.wrap_terms times (r :: rs') n new args_new σ = (Ok n', σ')
                  ∧ pass_state σb' σ' new args_new vnew' a'
                  ∧ pass_step σb σ σb' σ' new args_new
                  ∧ ∀ l0, is_Some (σ !! l0) → is_Some (σ' !! l0)
            | Raise e =>
                ∃ σ', Store.wrap_terms times (r :: rs') n new args_new σ
                      = (Raise e, σ')
            end) as Hcopy.
  { intros o Ho Hnd Hidx.
    destruct (pass_state_append _ _ _ _ _ _ _ _ Hst Hr)
      as (σ1 & Happ & Hst1 & Hstep1 & Hdom1).
    specialize (IH rs' n new args_new (vnew ++ [x])%list a σb σ1 Hst1 Hall).
    assert (Store.wrap_terms times (r :: rs') n new args_new σ
            = Store.wrap_terms times rs' n new args_new σ1) as ->.
    { simpl. rewrite (run_bind_Ok _ _ _ _ _ Ho). destruct o as [its|].
      - destruct (Hidx its eq_refl) as (Hk1 & HHk1).
        rewrite run_lift_bind, HHk1.
        rewrite (Hnd its Hk1 eq_refl HHk1).
        by rewrite (run_bind_Ok _ _ _ _ _ Happ).
      - by rewrite (run_bind_Ok _ _ _ _ _ Happ). }
    destruct (wrap_terms times ls n (vnew ++ [x])%list a)
      as [[[n' vnew'] a']|e]; [|done].
    destruct IH as (σb' & σ' & Hrun & Hst' & Hstep' & Hdom').
    exists σb', σ'. split; [done|]. split; [done|]. split.
    - by eapply pass_step_trans.
    - intros l0 Hl0. by apply Hdom', Hdom1. }
  destruct (as_list_repr _ _ _ _ Hsub Hr) as (o & Ho & Hov).
  destruct x as [a0|items|d].
  - simpl in Hov. subst o. simpl. by apply (Hcopy None).
  - destruct Hov as (its & -> & Hits).
    pose proof (getitem_repr (Store.repr σb) its items 1 Hits) as Hget.
    cbn [wrap_terms Store.wrap_terms]. rewrite (run_bind_Ok _ _ _ _ _ Ho).
    rewrite run_lift_bind.
    destruct (getitem items 1) as [x1|e] eqn:Hx1.
    2: { rewrite Hget. simpl. eauto. }
    destruct Hget as (Hk1 & HHk1 & Hrk1). rewrite HHk1.
    change (Ok x1 ≫= ?f) with (f x1). cbv beta iota.
    rewrite (isinstance_ndarray_repr _ _ _ Hrk1).
    destruct (isinstance_ndarray x1) eqn:Hx1a.
    2: { specialize (Hcopy (Some its) Ho).
         cbn [Store.wrap_terms] in Hcopy.
         rewrite (run_bind_Ok _ _ _ _ _ Ho), run_lift_bind, HHk1 in Hcopy.
         cbv beta iota in Hcopy.
         rewrite (isinstance_ndarray_repr _ _ _ Hrk1), Hx1a in Hcopy.
         apply Hcopy.
         - intros its' Hk1' [= <-] HH.
           rewrite HHk1 in HH. injection HH as <-.
           rewrite (isinstance_ndarray_repr _ _ _ Hrk1). congruence.
         - intros its' [= <-]. eauto. }
    (* the term is rewritten *)
    pose proof (unpack2_repr (Store.repr σb) its items Hits) as Hun.
    rewrite run_lift_bind.
    destruct (unpack2 items) as [[H_op H_td]|e] eqn:Hunp.
    2: { rewrite Hun. simpl. eauto. }
    destruct Hun as (r_op & r_td & -> & Hrop & Hrtd).
    change (Ok (H_op, H_td) ≫= ?f) with (f (H_op, H_td)). cbv beta iota.
    rewrite run_lift_bind.
    destruct (td_array_name n) as [name|e] eqn:Hname; [|simpl; eauto].
    change (Ok name ≫= ?f) with (f name). cbv beta.
    rewrite run_lift_bind.
    destruct (td_str times name) as [s|e] eqn:Hs; [|simpl; eauto].
    change (Ok s ≫= ?f) with (f s). cbv beta.
    destruct (pass_state_rewrite _ _ _ _ _ _ name s _ _ _ _ Hst Hrop Hrtd)
      as (σb1 & σ1 & Hrun1 & Hst1 & Hstep1 & Hdom1).
    rewrite Hrun1.
    assert (Forall2 (Store.repr σb1) rs' ls) as Hall1.
    { eapply list.Forall2_impl; [done|]. intros ??.
      apply repr_mono, Hstep1. }
    specialize (IH rs' (S n) new args_new _ _ σb1 σ1 Hst1 Hall1).
    destruct (wrap_terms times ls (S n) _ _) as [[[n' vnew'] a']|e]; [|done].
    destruct IH as (σb' & σ' & Hrun & Hst' & Hstep' & Hdom').
    exists σb', σ'. split; [done|]. split; [done|]. split.
    + by eapply pass_step_trans.
    + intros l0 Hl0. by apply Hdom', Hdom1.
  - simpl in Hov. subst o. simpl. by apply (Hcopy None).
Qed.


(** A pass of the store embedding against a pass of the value embedding.
    The reference returned stands for the value returned in every later
    store that leaves [new] as the pass left it. *)
Lemma wrap_pass_refines times H rH n new args_new a σb σ :
  pass_state σb σ new args_new [] a →
  Store.repr σb rH H →
  match wrap_pass times H n a with
  | Ok (n', H', a') =>
      ∃ σb' σ' r' vnew',
        Store.wrap_pass times rH n new args_new σ = (Ok (n', r'), σ')
        ∧ pass_state σb' σ' new args_new vnew' a'
        ∧ pass_step σb σ σb' σ' new args_new
        ∧ (∀ l0, is_Some (σ !! l0) → is_Some (σ' !! l0))
        ∧ ∀ σ'', σb' ⊆ σ'' → σ'' !! new = σ' !! new → Store.repr σ'' r' H'
  | Raise e =>
      ∃ σ', Store.wrap_pass times rH n new args_new σ = (Raise e, σ')
  end.
Proof.
  intros Hst HrH. assert (σb ⊆ σ) as Hsub by apply Hst.
  destruct (as_list_repr _ _ _ _ Hsub HrH) as (o & Ho & Hov).
  unfold Store.wrap_pass. rewrite (run_bind_Ok _ _ _ _ _ Ho).
  assert (∀ H0, Store.repr σb rH H0 →
            ∃ σb' σ' r' vnew',
              (mret (n, rH) : Store.M _) σ = (Ok (n, r'), σ')
              ∧ pass_state σb' σ' new args_new vnew' a
              ∧ pass_step σb σ σb' σ' new args_new
              ∧ (∀ l0, is_Some (σ !! l0) → is_Some (σ' !! l0))
              ∧ ∀ σ'', σb' ⊆ σ'' → σ'' !! new = σ' !! new →
                       Store.repr σ'' r' H0) as Hsame.
  { intros H0 HrH0. exists σb, σ, rH, []. split; [done|]. split; [done|].
    split; [apply pass_step_refl|]. split; [done|].
    intros σ'' Hσ'' _. by eapply repr_mono. }
  unfold wrap_pass. destruct H as [a0|ls|d].
  - simpl in Hov. subst o. by apply Hsame.
  - destruct Hov as (rs & -> & Hrs).
    pose proof (wrap_terms_refines times ls rs n new args_new [] a σb σ
                  Hst Hrs) as Hloop.
    destruct (wrap_terms times ls n [] a) as [[[n' vnew'] a']|e]; simpl.
    + destruct Hloop as (σb' & σ' & Hrun & Hst' & Hstep & Hdom).
      exists σb', σ', (Store.RObj new), vnew'.
      rewrite (run_bind_Ok _ _ _ _ _ Hrun). split; [done|].
      split; [done|]. split; [done|]. split; [done|].
      intros σ'' Hσ'' Hnew.
      destruct Hst' as (_ & _ & _ & _ & rnew & rd & Hσn & _ & Hrn & _).
      apply Store.repr_list with rnew; [congruence|].
      eapply list.Forall2_impl; [done|]. intros ??. by apply repr_mono.
    + destruct Hloop as (σ' & Hrun).
      exists σ'. by rewrite (run_bind_Raise _ _ _ _ _ Hrun).
  - simpl in Hov. subst o. by apply Hsame.
Qed.

Lemma dict_repr_empty σ (rd : gmap string Store.ref) (a : gmap string val) :
  (∀ k, option_Forall2 (Store.repr σ) (rd !! k) (a !! k)) →
  bool_decide (rd = ∅) = bool_decide (a = ∅).
Proof.
  intros Hrd. apply bool_decide_ext. split; intros ->.
  - apply map_eq. intros k. specialize (Hrd k).
    rewrite lookup_empty in *. by inversion Hrd.
  - apply map_eq. intros k. specialize (Hrd k).
    rewrite lookup_empty in *. by inversion Hrd.
Qed.

Lemma dict_repr_union σ (rd1 rd2 : gmap string Store.ref)
    (a1 a2 : gmap string val) :
  (∀ k, option_Forall2 (Store.repr σ) (rd1 !! k) (a1 !! k)) →
  (∀ k, option_Forall2 (Store.repr σ) (rd2 !! k) (a2 !! k)) →
  ∀ k, option_Forall2 (Store.repr σ) ((rd1 ∪ rd2) !! k) ((a1 ∪ a2) !! k).
Proof.
  intros H1 H2 k. rewrite !lookup_union.
  destruct (H1 k), (H2 k); simpl; by constructor.
Qed.


(** The store embedding refines the value embedding: called on references
    that stand for [H], [c_ops] and [args], it raises the exception the
    value embedding raises, or returns references that stand, in the store
    it ends in, for the values the value embedding returns; and every
    object of the store it was called in is unchanged. *)
Lemma td_wrap_refines σ rH rc ra H c args times :
  Store.repr σ rH H → Store.repr σ rc c → Store.repr σ ra args →
  ∃ res σ',
    Store._td_wrap_array_str rH rc ra times σ = (res, σ')
    ∧ σ ⊆ σ'
    ∧ match _td_wrap_array_str H c args times with
      | Ok (H', c', args') =>
          ∃ rH' rc' ra',
            res = Ok (rH', rc', ra')
            ∧ Store.repr σ' rH' H' ∧ Store.repr σ' rc' c'
            ∧ Store.repr σ' ra' args'
      | Raise e => res = Raise e
      end.
Proof.
  intros HrH Hrc Hra.
  destruct (Store._td_wrap_array_str rH rc ra times σ) as [res σ'] eqn:Hrun.
  exists res, σ'. split; [done|]. split.
  { destruct (td_wrap_keeps σ rH rc ra times σ) as [Hk _]; [done|].
    by rewrite Hrun in Hk. }
  revert Hrun. unfold Store._td_wrap_array_str.
  set (l1 := fresh (dom σ)).
  set (σ1 := <[l1 := Store.OList []]> σ).
  set (l2 := fresh (dom σ1)).
  set (σ2 := <[l2 := Store.OList []]> σ1).
  set (l3 := fresh (dom σ2)).
  set (σ3 := <[l3 := Store.ODict ∅]> σ2).
  rewrite (run_bind_Ok _ _ σ l1 σ1) by done.
  rewrite (run_bind_Ok _ _ σ1 l2 σ2) by done.
  rewrite (run_bind_Ok _ _ σ2 l3 σ3) by done.
  assert (σ !! l1 = None) as H1 by apply not_elem_of_dom, is_fresh.
  assert (σ1 !! l2 = None) as H2 by apply not_elem_of_dom, is_fresh.
  assert (σ2 !! l3 = None) as H3 by apply not_elem_of_dom, is_fresh.
  assert (l2 ≠ l1) as H21.
  { intros Heq. rewrite Heq in H2. unfold σ1 in H2.
    by rewrite lookup_insert_eq in H2. }
  assert (σ !! l2 = None) as H2'.
  { unfold σ1 in H2. by rewrite lookup_insert_ne in H2. }
  assert (l3 ≠ l2) as H32.
  { intros Heq. rewrite Heq in H3. unfold σ2 in H3.
    by rewrite lookup_insert_eq in H3. }
  assert (l3 ≠ l1) as H31.
  { intros Heq. rewrite Heq in H3. unfold σ2, σ1 in H3.
    by rewrite lookup_insert_ne, lookup_insert_eq in H3. }
  assert (σ !! l3 = None) as H3'.
  { unfold σ2, σ1 in H3. by rewrite !lookup_insert_ne in H3. }
  assert (σ ⊆ σ3) as Hsub3.
  { unfold σ3, σ2, σ1. by do 3 (apply insert_subseteq_r; [done|]). }
  assert (pass_state σ σ3 l1 l3 [] ∅) as Hst.
  { split; [done|]. repeat split; try done.
    exists [], ∅. unfold σ3, σ2, σ1.
    rewrite lookup_insert_ne, lookup_insert_ne, !lookup_insert_eq by done.
    repeat split; try done. intros k. rewrite !lookup_empty. constructor. }
  (* the pass on the Hamiltonian *)
  pose proof (wrap_pass_refines times H rH 0 l1 l3 ∅ σ σ3 Hst HrH) as Hp1.
  unfold _td_wrap_array_str, wrap_passes.
  destruct (wrap_pass times H 0 ∅) as [[[n1 H'] a1]|e]; simpl.
  2: { destruct Hp1 as (σ4 & Hp1). rewrite (run_bind_Raise _ _ _ _ _ Hp1).
       by intros [= <- _]. }
  destruct Hp1 as (σb4 & σ4 & rH' & vnew1 & Hp1 & Hst4 & Hstep4 & Hdom4 & Hout1).
  rewrite (run_bind_Ok _ _ _ _ _ Hp1).
  destruct Hst4 as (Hsub4 & Hb41 & Hb43 & _ & rnew4 & rd4 & Hσ41 & Hσ43 & _ & Hrd4).
  destruct Hstep4 as (Hbb4 & Hfresh4 & Hkeep4).
  (* the pass on the collapse operators *)
  assert (pass_state σb4 σ4 l2 l3 [] a1) as Hst4'.
  { split; [done|]. split.
    { apply Hfresh4; [|done]. unfold σ3, σ2.
      by rewrite lookup_insert_ne, lookup_insert_eq. }
    split; [done|]. split; [done|]. exists [], rd4.
    split; [|done]. apply Hkeep4; try done.
    unfold σ3, σ2. by rewrite lookup_insert_ne, lookup_insert_eq. }
  assert (Store.repr σb4 rc c) as Hrc4 by by eapply repr_mono.
  pose proof (wrap_pass_refines times c rc n1 l2 l3 a1 σb4 σ4 Hst4' Hrc4) as Hp2.
  destruct (wrap_pass times c n1 a1) as [[[n2 c'] a2]|e]; simpl.
  2: { destruct Hp2 as (σ5 & Hp2). rewrite (run_bind_Raise _ _ _ _ _ Hp2).
       by intros [= <- _]. }
  destruct Hp2 as (σb5 & σ5 & rc' & vnew2 & Hp2 & Hst5 & Hstep5 & Hdom5 & Hout2).
  rewrite (run_bind_Ok _ _ _ _ _ Hp2).
  destruct Hst5 as (Hsub5 & Hb52 & Hb53 & _ & rnew5 & rd5 & Hσ52 & Hσ53 & _ & Hrd5).
  destruct Hstep5 as (Hbb5 & Hfresh5 & Hkeep5).
  assert (σ5 !! l1 = σ4 !! l1) as Hσ51.
  { rewrite Hσ41. by apply Hkeep5. }
  assert (σb5 !! l1 = None) as Hb51.
  { apply Hfresh5; [by rewrite Hσ41|done]. }
  assert (σ ⊆ σb5) as Hbb by by etrans.
  (* the merge *)
  assert (Store.repr σb5 ra args) as Hra5 by by eapply repr_mono.
  pose proof (truthy_repr _ _ _ _ Hsub5 Hra5) as Htruthy.
  unfold merge_args. destruct (truthy args) as [b|e]; simpl.
  2: { rewrite (run_bind_Raise _ _ _ _ _ Htruthy). by intros [= <- _]. }
  rewrite (run_bind_Ok _ _ _ _ _ Htruthy).
  assert (∀ σ6, σb5 ⊆ σ6 → σ6 !! l1 = σ5 !! l1 → σ6 !! l2 = σ5 !! l2 →
            Store.repr σ6 rH' H' ∧ Store.repr σ6 rc' c') as Hfinal.
  { intros σ6 Hsub6 H61 H62. split.
    - apply Hout1; [by etrans | congruence].
    - by apply Hout2. }
  destruct b.
  - destruct (as_dict_repr _ _ _ _ Hsub5 Hra5) as (o & Ho & Hov).
    rewrite (run_bind_Ok _ _ _ _ _ Ho).
    assert (∀ v, Store.repr σb5 ra v → o = None →
              (Store.truthy (Store.RObj l3)
               ≫= λ b_new : bool,
                    if negb b_new then mret (rH', rc', ra)
                    else Store.lift (Raise (ValueError msg_args))) σ5
              = (res, σ') →
              match (if bool_decide (a2 = ∅) then Ok v
                     else Raise (ValueError msg_args))
                    ≫= (λ args_out, Ok (H', c', args_out)) with
              | Ok (H0, c0, args0) =>
                  ∃ rH0 rc0 ra0,
                    res = Ok (rH0, rc0, ra0)
                    ∧ Store.repr σ' rH0 H0 ∧ Store.repr σ' rc0 c0
                    ∧ Store.repr σ' ra0 args0
              | Raise e => res = Raise e
              end) as Hother.
    { intros v Hv -> Hrun.
      erewrite (run_bind_Ok _ _ σ5 _ σ5) in Hrun.
      2: { unfold Store.truthy. by rewrite Hσ53. }
      rewrite negb_involutive, (dict_repr_empty _ _ _ Hrd5) in Hrun.
      destruct (bool_decide (a2 = ∅)); simpl.
      - injection Hrun as <- <-. exists rH', rc', ra.
        destruct (Hfinal σ5) as [? ?]; try done.
        repeat split; try done. by eapply repr_mono.
      - by injection Hrun as <- _. }
    destruct args as [a0|ls|d].
    + simpl in Hov. subst o. by apply Hother.
    + simpl in Hov. subst o. by apply Hother.
    + destruct Hov as (rd & -> & Hrd).
      set (σ6 := <[l3 := Store.ODict (rd ∪ rd5)]> σ5).
      erewrite (run_bind_Ok _ _ σ5 _ σ6).
      2: { unfold Store.dict_update. by rewrite Hσ53. }
      intros [= <- <-]. exists rH', rc', (Store.RObj l3).
      assert (σb5 ⊆ σ6) as Hsub6 by by apply insert_subseteq_r.
      destruct (Hfinal σ6) as [? ?]; try done.
      { unfold σ6. rewrite lookup_insert_ne; [done|]. congruence. }
      { unfold σ6. rewrite lookup_insert_ne; [done|]. congruence. }
      repeat split; try done.
      apply Store.repr_dict with (rd ∪ rd5).
      { unfold σ6. by rewrite lookup_insert_eq. }
      apply dict_repr_union.
      * intros k. destruct (Hrd k); constructor. by eapply repr_mono.
      * intros k. destruct (Hrd5 k); constructor. by eapply repr_mono.
  - intros [= <- <-]. exists rH', rc', (Store.RObj l3).
    destruct (Hfinal σ5) as [? ?]; try done.
    repeat split; try done.
    apply Store.repr_dict with rd5; [done|].
    intros k. destruct (Hrd5 k); constructor. by eapply repr_mono.
Qed.


(** C6, as amended.  [_td_wrap_array_str] never changes an object of the
    store it is called in, whatever its arguments and whether it returns or
    raises.  On an input without array-encoded term, every list term of
    which has an item 1 to test and the parameters of which have a truth
    value, it returns references that stand for the values of its
    arguments: the Hamiltonian, the collapse operators and, when the
    caller's parameters are non-empty, these parameters (the empty mapping
    otherwise).  And on an input without array-encoded term it returns
    under these two conditions only: a list term of fewer than two items
    makes [Hk[1]] raise, and parameters without a truth value make
    [if args:] raise. *)
Theorem wrap_without_arrays :
  (∀ σ rH rc ra times, σ ⊆ (Store._td_wrap_array_str rH rc ra times σ).2)
  ∧ (∀ σ rH rc ra H c args times (b : bool),
      Store.repr σ rH H → Store.repr σ rc c → Store.repr σ ra args →
      Forall (λ x, array_term x = false ∧ indexable x = true) (terms H) →
      Forall (λ x, array_term x = false ∧ indexable x = true) (terms c) →
      truthy args = Ok b →
      _td_wrap_array_str H c args times
      = Ok (H, c, if b then args else VDict ∅)
      ∧ ∃ rH' rc' ra' σ',
          Store._td_wrap_array_str rH rc ra times σ
          = (Ok (rH', rc', ra'), σ')
          ∧ σ ⊆ σ'
          ∧ Store.repr σ' rH' H ∧ Store.repr σ' rc' c
          ∧ Store.repr σ' ra' (if b then args else VDict ∅))
  ∧ (∀ H c args times,
      Forall (λ x, array_term x = false) (terms H) →
      Forall (λ x, array_term x = false) (terms c) →
      (∃ out, _td_wrap_array_str H c args times = Ok out)
      ↔ Forall (λ x, indexable x = true) (terms H)
        ∧ Forall (λ x, indexable x = true) (terms c)
        ∧ ∃ b, truthy args = Ok b).
Proof.
  split; [|split].
  { intros σ rH rc ra times.
    by destruct (td_wrap_keeps σ rH rc ra times σ) as [Hk _]. }
  { intros σ rH rc ra H c args times b HrH Hrc Hra HH Hc Hb.
    pose proof (wrap_no_arrays H c args times b HH Hc Hb) as Hpure.
    split; [done|].
    destruct (td_wrap_refines σ rH rc ra H c args times HrH Hrc Hra)
      as (res & σ' & Hrun & Hsub & Hres).
    rewrite Hpure in Hres. destruct Hres as (rH' & rc' & ra' & -> & ? & ? & ?).
    by exists rH', rc', ra', σ'. }
  intros H c args times HH Hc. split.
  - intros [out Hout]. by eapply wrap_Ok_indexable.
  - intros (HiH & Hic & b & Hb). eexists.
    apply (wrap_no_arrays H c args times b); [| |done].
    + by apply list.Forall_and.
    + by apply list.Forall_and.
Qed.

Lemma wrap_without_arrays_witness :
  let σ : gmap Store.loc Store.obj :=
    {[ 1%positive := Store.OList [Store.RAtom (AQobj 0)] ]} in
  let H := VList [VAtom (AQobj 0)] in
  ∃ rH' rc' ra' σ',
    Store._td_wrap_array_str (Store.RObj 1%positive) (Store.RObj 1%positive)
      (Store.RAtom ANone) [] σ = (Ok (rH', rc', ra'), σ')
    ∧ σ ⊆ σ'
    ∧ Store.repr σ' rH' H ∧ Store.repr σ' rc' H
    ∧ Store.repr σ' ra' (VDict ∅).
Proof.
  intros σ H.
  assert (Store.repr σ (Store.RObj 1%positive) H) as HrH.
  { apply Store.repr_list with [Store.RAtom (AQobj 0)]; [reflexivity|].
    repeat constructor. }
  destruct wrap_without_arrays as (_ & Hw & _).
  destruct (Hw σ (Store.RObj 1%positive) (Store.RObj 1%positive)
              (Store.RAtom ANone) H H (VAtom ANone) [] false)
    as [_ Hstore].
  - exact HrH.
  - exact HrH.
  - constructor.
  - repeat constructor.
  - repeat constructor.
  - reflexivity.
  - exact Hstore.
Defined.

(** C6, as stated, fails: an input without array-encoded term is not always
    returned.  The Hamiltonian [[Q0, [Q1]]] holds no array, and the call
    raises [IndexError] at [Hk[1]] of its second term (line 188), on the
    values and on the store alike; and with parameters that are an array of
    two samples, [if args:] raises [ValueError] (line 214). *)
Lemma wrap_without_arrays_not_every_input :
  let H := VList [VAtom (AQobj 0); VList [VAtom (AQobj 1)]] in
  let H0 := VList [VAtom (AQobj 0)] in
  let args := VAtom (ANdarray [NInt 1; NInt 2]) in
  let times := [NInt 0; NInt 1] in
  let σ : gmap Store.loc Store.obj :=
    <[3%positive := Store.OList []]>
      (<[2%positive :=
           Store.OList [Store.RAtom (AQobj 0); Store.RObj 1%positive]]>
         {[ 1%positive := Store.OList [Store.RAtom (AQobj 1)] ]}) in
  Forall (λ x, array_term x = false) (terms H)
  ∧ Forall (λ x, array_term x = false) (terms H0)
  ∧ _td_wrap_array_str H (VList []) (VAtom ANone) times
    = Raise (IndexError "list index out of range")
  ∧ _td_wrap_array_str H0 (VList []) args times
    = Raise (ValueError
        "The truth value of an array with more than one element is ambiguous. Use a.any() or a.all()")
  ∧ Store.repr σ (Store.RObj 2%positive) H
  ∧ Store.repr σ (Store.RObj 3%positive) (VList [])
  ∧ (Store._td_wrap_array_str (Store.RObj 2%positive) (Store.RObj 3%positive)
       (Store.RAtom ANone) times σ).1
    = Raise (IndexError "list index out of range")
  ∧ ¬ (∀ H c args times,
         Forall (λ x, array_term x = false) (terms H) →
         Forall (λ x, array_term x = false) (terms c) →
         ∃ args', _td_wrap_array_str H c args times = Ok (H, c, args')).
Proof.
  intros H H0 args times σ.
  split; [by repeat constructor|]. split; [by repeat constructor|].
  split; [done|]. split; [done|]. split.
  { apply Store.repr_list
      with [Store.RAtom (AQobj 0); Store.RObj 1%positive]; [reflexivity|].
    constructor; [constructor|]. constructor; [|constructor].
    apply Store.repr_list with [Store.RAtom (AQobj 1)]; [reflexivity|].
    repeat constructor. }
  split.
  { apply Store.repr_list with []; [reflexivity | constructor]. }
  split; [by vm_compute|].
  intros Hall.
  destruct (Hall H (VList []) (VAtom ANone) times) as [args' Hr];
    [by repeat constructor | by constructor | done].
Qed.

End refinement.

(** ** The boundary of the embedding *)

Section modelled.

(** Neither function reaches the conversion left outside the embedding. *)
Lemma ode_checks_modelled (H c : val) cython solver what :
  _ode_checks H c cython solver ≠ Raise (Unmodelled what).
Proof.
  unfold _ode_checks. intros Hr.
  apply bind_Raise in Hr as [Hr | (h & _ & Hr)].
  { by apply check_H_Raise in Hr. }
  apply bind_Raise in Hr as [Hr | (pc & _ & Hr)].
  { by apply check_c_ops_Raise in Hr. }
  destruct (_ && _ || _ && _); [done|].
  apply bind_Raise in Hr as [Hr | ([] & _ & Hr)].
  - destruct (_ || _); [|done]. by apply check_cython_Raise in Hr as [|].
  - by apply discriminant_Raise in Hr.
Qed.

Local Opaque td_array_name td_str.

Lemma wrap_terms_modelled times l n new args_new what :
  wrap_terms times l n new args_new ≠ Raise (Unmodelled what).
Proof.
  revert n new args_new.
  induction l as [|x l IH]; intros n new args_new; [done|].
  destruct x as [a|items|d]; simpl; try apply IH.
  intros Hr. apply bind_Raise in Hr as [Hr | (x1 & _ & Hr)].
  { unfold getitem in Hr. by destruct (items !! 1). }
  destruct (isinstance_ndarray x1); [|by apply IH in Hr].
  apply bind_Raise in Hr as [Hr | ([H_op H_td] & _ & Hr)].
  { by destruct items as [|? [|? [|? ?]]]. }
  apply bind_Raise in Hr as [Hr | (name & _ & Hr)].
  { by apply td_array_name_modelled in Hr. }
  apply bind_Raise in Hr as [Hr | (s & _ & Hr)].
  { by apply td_str_modelled in Hr. }
  by apply IH in Hr.
Qed.

Lemma td_wrap_modelled (H c args : val) times what :
  _td_wrap_array_str H c args times ≠ Raise (Unmodelled what).
Proof.
  assert (∀ v n a, wrap_pass times v n a ≠ Raise (Unmodelled what)) as Hpass.
  { intros v n a Hr. unfold wrap_pass in Hr. destruct v as [?|l|?]; try done.
    apply bind_Raise in Hr as [Hr | ([[? ?] ?] & _ & Hr)]; [|done].
    by apply wrap_terms_modelled in Hr. }
  unfold _td_wrap_array_str, wrap_passes. intros Hr.
  apply bind_Raise in Hr as [Hr | ([[H' c'] a2] & _ & Hr)].
  - apply bind_Raise in Hr as [Hr | ([[n1 H'] a1] & _ & Hr)].
    { by apply Hpass in Hr. }
    apply bind_Raise in Hr as [Hr | ([[n2 c'] a2] & _ & Hr)]; [|done].
    by apply Hpass in Hr.
  - apply bind_Raise in Hr as [Hr | (? & _ & Hr)]; [|done].
    unfold merge_args in Hr.
    apply bind_Raise in Hr as [Hr | (b & _ & Hr)].
    + destruct args as [[| | | | | | |[|? [|? ?]]]| |]; done.
    + destruct b; [|done]. destruct args; try done; by case_bool_decide.
Qed.

End modelled.

(** * Further properties of [_ode_checks] *)

Section classifier_more.

Implicit Types (H c l : list val) (cython : option string) (solver : string).

Lemma function_hamiltonian_time_type_witness :
  ∃ pc, RTimeType 3 no_parts (Parts [0] [] []) = RTimeType 3 no_parts pc.
Proof.
  apply (function_hamiltonian_time_type 0 (VList [VAtom (AQobj 0)]) None).
  reflexivity.
Defined.

Lemma capability_not_checked_witness :
  _ode_checks (VList [VList [VAtom (AQobj 0); VAtom (AFunction 0)]])
    (VList []) None "mc"
  = _ode_checks (VList [VList [VAtom (AQobj 0); VAtom (AFunction 0)]])
      (VList []) (Some "0.13") "mc".
Proof.
  apply (capability_not_checked
           (VList [VList [VAtom (AQobj 0); VAtom (AFunction 0)]]) (VList [])
           None (Some "0.13") "mc" (Parts [] [0] []) no_parts);
    reflexivity.
Defined.

Lemma capability_absent_witness :
  _ode_checks (VList [VAtom (AQobj 0)])
    (VList [VList [VAtom (AQobj 1); VAtom (ANdarray [])]]) None "me"
  = Raise (Exception msg_no_cython)
  ∧ MissingCapability (Exception msg_no_cython).
Proof.
  apply (capability_absent (VList [VAtom (AQobj 0)])
           (VList [VList [VAtom (AQobj 1); VAtom (ANdarray [])]]) "me"
           (Parts [0] [] []) (Parts [] [] [0])); try reflexivity.
  right. discriminate.
Defined.

Lemma length_indices_from (f : val → bool) k l :
  length (indices_from f k l) = length (filter (λ x, f x = true) l).
Proof.
  revert k. induction l as [|x l IH]; intros k; simpl; [done|].
  rewrite filter_cons, length_app, IH.
  destruct (f x); by case_decide.
Qed.

(** X5: the time type of the Monte-Carlo solver, for a Hamiltonian list.  When
    both lists pass the shape checks, neither mixes the two encodings and the
    Cython check passes, the call with [solver = 'mc'] returns the time type
    of the table with the partitions of the two lists; it raises the
    exception on the time dependence for the two combinations the table
    leaves out, strings in one list and callbacks in the other.  With
    [solver = 'me'] the same input is accepted in every combination. *)
Theorem time_type_table H c cython :
  existsb malformed_term H = false →
  existsb malformed_term c = false →
  mixed H = false → mixed c = false →
  check_cython cython = Ok () →
  _ode_checks (VList H) (VList c) cython "mc"
  = match time_type_code (encoding_of H) (encoding_of c) with
    | Some time_type => Ok (RTimeType time_type (parts_of H) (parts_of c))
    | None => Raise (Exception msg_time_type)
    end
  ∧ ∃ n_const n_func n_str,
      _ode_checks (VList H) (VList c) cython "me"
      = Ok (RCounts n_const n_func n_str).
Proof.
  intros HH Hc HmH Hmc Hcy.
  rewrite !ode_checks_lists by done. simpl. rewrite HmH, Hmc, Hcy. simpl.
  split.
  2: { destruct (_ || _); simpl; unfold discriminant; simpl; eauto. }
  assert (∀ b : bool, (_ ← (if b then Ok () else Ok ());
                       discriminant (VList H) (parts_of H) (parts_of c) "mc")
                      = discriminant (VList H) (parts_of H) (parts_of c) "mc")
    as -> by by intros [].
  unfold discriminant, time_type_of, encoding_of, mixed in *. simpl.
  pose proof (indices_from_length_pos callback_term 0 H) as Hhf.
  pose proof (indices_from_length_pos string_term 0 H) as Hhs.
  pose proof (indices_from_length_pos callback_term 0 c) as Hcf.
  pose proof (indices_from_length_pos string_term 0 c) as Hcs.
  destruct (existsb callback_term H), (existsb string_term H),
    (existsb callback_term c), (existsb string_term c); try done;
    destruct (length (indices_from callback_term 0 H)),
      (length (indices_from string_term 0 H)),
      (length (indices_from callback_term 0 c)),
      (length (indices_from string_term 0 c)); done.
Qed.

Lemma time_type_table_witness :
  let H := [VList [VAtom (AQobj 0); VAtom (AStr "sin(t)")]] in
  let c := [VList [VAtom (AQobj 1); VAtom (AFunction 0)]] in
  _ode_checks (VList H) (VList c) (Some "0.29") "mc"
  = Raise (Exception msg_time_type)
  ∧ ∃ n_const n_func n_str,
      _ode_checks (VList H) (VList c) (Some "0.29") "me"
      = Ok (RCounts n_const n_func n_str).
Proof.
  intros H c. apply (time_type_table H c (Some "0.29")); reflexivity.
Defined.


(** An element that is not malformed is of one kind exactly. *)
Lemma kinds_exclusive x :
  malformed_term x = false →
  (isinstance_Qobj x = true ∧ callback_term x = false
   ∧ string_term x = false ∧ skipped x = false)
  ∨ (isinstance_Qobj x = false ∧ callback_term x = true
     ∧ string_term x = false ∧ skipped x = false)
  ∨ (isinstance_Qobj x = false ∧ callback_term x = false
     ∧ string_term x = true ∧ skipped x = false)
  ∨ (isinstance_Qobj x = false ∧ callback_term x = false
     ∧ string_term x = false ∧ skipped x = true).
Proof.
  destruct x as [[]|[|x0 [|x1 [|? ?]]]|d]; try done; try tauto.
  destruct x0 as [[]| |], x1 as [[]| |]; try done; simpl; tauto.
Qed.

Lemma kinds_cover l :
  existsb malformed_term l = false →
  length (filter (λ x, isinstance_Qobj x = true) l)
  + length (filter (λ x, callback_term x = true) l)
  + length (filter (λ x, string_term x = true) l)
  + length (filter (λ x, skipped x = true) l) = length l.
Proof.
  induction l as [|x l IH]; [done|]. simpl.
  intros [Hx Hl]%orb_false_iff. specialize (IH Hl).
  rewrite !filter_cons.
  destruct (kinds_exclusive x Hx)
    as [(-> & -> & -> & ->) | [(-> & -> & -> & ->)
       | [(-> & -> & -> & ->) | (-> & -> & -> & ->)]]];
    repeat case_decide; try done; simpl; lia.
Qed.

(** X6: the counts of the master-equation solver.  When the call with
    [solver = 'me'] returns, the three numbers are those of the bare
    operators, of the callback terms and of the string-like terms of the two
    lists together; with the elements the loops skip, they add up to the
    lengths of the two lists. *)
Theorem me_counts H c cython r :
  _ode_checks (VList H) (VList c) cython "me" = Ok r →
  r = RCounts
        (length (filter (λ x, isinstance_Qobj x = true) (H ++ c)%list))
        (length (filter (λ x, callback_term x = true) (H ++ c)%list))
        (length (filter (λ x, string_term x = true) (H ++ c)%list))
  ∧ ∃ n_const n_func n_str,
      r = RCounts n_const n_func n_str
      ∧ n_const + n_func + n_str
        + length (filter (λ x, skipped x = true) (H ++ c)%list)
        = length H + length c.
Proof.
  intros Hr.
  destruct (existsb malformed_term H) eqn:HH.
  { by rewrite ode_checks_malformed_H in Hr. }
  destruct (existsb malformed_term c) eqn:Hc.
  { by rewrite ode_checks_malformed_c in Hr. }
  rewrite ode_checks_lists in Hr by done. simpl in Hr.
  destruct (mixed H || mixed c); [done|].
  apply bind_Ok in Hr as ([] & _ & Hr). unfold discriminant in Hr.
  simpl in Hr. injection Hr as <-.
  rewrite !list.filter_app, !length_app, !length_indices_from.
  split; [done|]. eexists _, _, _. split; [done|].
  pose proof (kinds_cover H HH). pose proof (kinds_cover c Hc). lia.
Qed.

Lemma me_counts_witness :
  ∃ n_const n_func n_str,
    RCounts 1 1 0 = RCounts n_const n_func n_str
    ∧ n_const + n_func + n_str
      + length (filter (λ x, skipped x = true)
                  ([VAtom (AQobj 0); VAtom ANone]
                   ++ [VList [VAtom (AQobj 1); VAtom (AFunction 0)]])%list)
      = 2 + 1.
Proof.
  apply (me_counts [VAtom (AQobj 0); VAtom ANone]
           [VList [VAtom (AQobj 1); VAtom (AFunction 0)]] None (RCounts 1 1 0)).
  reflexivity.
Defined.

Lemma indices_from_sorted (f : val → bool) k l :
  StronglySorted lt (indices_from f k l)
  ∧ Forall (λ i, k ≤ i < k + length l) (indices_from f k l).
Proof.
  revert k. induction l as [|x l IH]; intros k; simpl.
  { split; constructor. }
  destruct (IH (S k)) as [Hs Hb].
  assert (Forall (λ i, k ≤ i < k + S (length l)) (indices_from f (S k) l)).
  { eapply list.Forall_impl; [exact Hb|]. intros i; simpl; lia. }
  destruct (f x); simpl; [|done]. split.
  - constructor; [done|].
    eapply list.Forall_impl; [exact Hb|]. intros i; simpl; lia.
  - constructor; [lia|done].
Qed.

Lemma kinds_disjoint x :
  malformed_term x = false →
  ¬ (isinstance_Qobj x = true ∧ callback_term x = true)
  ∧ ¬ (isinstance_Qobj x = true ∧ string_term x = true)
  ∧ ¬ (callback_term x = true ∧ string_term x = true)
  ∧ (skipped x = false
     ↔ isinstance_Qobj x = true ∨ callback_term x = true
       ∨ string_term x = true).
Proof.
  intros Hx.
  destruct (kinds_exclusive x Hx)
    as [(-> & -> & -> & ->) | [(-> & -> & -> & ->)
       | [(-> & -> & -> & ->) | (-> & -> & -> & ->)]]];
    intuition congruence.
Qed.

Lemma indices_from_disjoint (f g : val → bool) l k i :
  (∀ x, x ∈ l → ¬ (f x = true ∧ g x = true)) →
  i ∈ indices_from f k l → i ∈ indices_from g k l → False.
Proof.
  intros Hfg (x & _ & Hx & Hf)%elem_of_indices_from
    (y & _ & Hy & Hg)%elem_of_indices_from.
  assert (y = x) as -> by congruence.
  apply (Hfg x); [by eapply list_elem_of_lookup_2 | done].
Qed.

Lemma sorted_lt_NoDup (l : list nat) : StronglySorted lt l → NoDup l.
Proof.
  induction 1 as [|i l Hs IH Hall]; constructor; [|done].
  intros Hi. rewrite list.Forall_forall in Hall. specialize (Hall i Hi). lia.
Qed.

(** X7: the partitions returned for the Monte-Carlo solver: each of the three
    index lists of a list is increasing; the three are disjoint; an index
    is in one of them exactly when it is the position of an element the loop
    does not skip (a bare operator or a well-formed pair). *)
Theorem partitions_invariant H c cython time_type h pc :
  _ode_checks (VList H) (VList c) cython "mc" = Ok (RTimeType time_type h pc) →
  ∀ p l, (p = h ∧ l = H) ∨ (p = pc ∧ l = c) →
    StronglySorted lt (p_const p)
    ∧ StronglySorted lt (p_func p)
    ∧ StronglySorted lt (p_str p)
    ∧ NoDup (p_const p ++ p_func p ++ p_str p)%list
    ∧ ∀ k, k ∈ (p_const p ++ p_func p ++ p_str p)%list
           ↔ ∃ x, l !! k = Some x ∧ skipped x = false.
Proof.
  intros Hr.
  destruct (existsb malformed_term H) eqn:HH.
  { by rewrite ode_checks_malformed_H in Hr. }
  destruct (existsb malformed_term c) eqn:Hc.
  { by rewrite ode_checks_malformed_c in Hr. }
  rewrite ode_checks_lists in Hr by done. simpl in Hr.
  destruct (mixed H || mixed c); [done|].
  apply bind_Ok in Hr as ([] & _ & Hr). unfold discriminant in Hr.
  simpl in Hr. apply bind_Ok in Hr as (t & _ & Hr).
  injection Hr as _ <- <-.
  assert (∀ l, existsb malformed_term l = false →
            StronglySorted lt (p_const (parts_of l))
            ∧ StronglySorted lt (p_func (parts_of l))
            ∧ StronglySorted lt (p_str (parts_of l))
            ∧ NoDup (p_const (parts_of l) ++ p_func (parts_of l)
                     ++ p_str (parts_of l))%list
            ∧ ∀ k, k ∈ (p_const (parts_of l) ++ p_func (parts_of l)
                        ++ p_str (parts_of l))%list
                   ↔ ∃ x, l !! k = Some x ∧ skipped x = false) as Hparts.
  { intros l Hl. simpl.
    assert (∀ x, x ∈ l → malformed_term x = false) as Hok.
    { intros x Hx. apply not_true_iff_false. intros Hm.
      apply not_true_iff_false in Hl. apply Hl, existsb_exists.
      exists x. by rewrite <- list_elem_of_In. }
    split; [apply indices_from_sorted|].
    split; [apply indices_from_sorted|].
    split; [apply indices_from_sorted|]. split.
    - apply list.NoDup_app.
      split; [apply sorted_lt_NoDup, indices_from_sorted|]. split.
      + intros k Hk [Hk'|Hk']%elem_of_app.
        * eapply (indices_from_disjoint isinstance_Qobj callback_term); [|done..].
          intros x Hx. by apply kinds_disjoint, Hok.
        * eapply (indices_from_disjoint isinstance_Qobj string_term); [|done..].
          intros x Hx. by apply kinds_disjoint, Hok.
      + apply list.NoDup_app.
        split; [apply sorted_lt_NoDup, indices_from_sorted|].
        split; [|apply sorted_lt_NoDup, indices_from_sorted].
        intros k Hk Hk'.
        eapply (indices_from_disjoint callback_term string_term); [|done..].
        intros x Hx. by apply kinds_disjoint, Hok.
    - intros k. rewrite !elem_of_app, !elem_of_indices_from.
      setoid_rewrite Nat.sub_0_r. split.
      + intros Hk. assert (∃ x, l !! k = Some x
                             ∧ (isinstance_Qobj x = true ∨ callback_term x = true
                                ∨ string_term x = true)) as (x & Hx & Hkind).
        { destruct Hk as [(x & _ & Hx & Hf)
                         | [(x & _ & Hx & Hf) | (x & _ & Hx & Hf)]];
            exists x; auto. }
        exists x. split; [done|].
        apply (kinds_disjoint x); [|done].
        apply Hok. by eapply list_elem_of_lookup_2.
      + intros (x & Hx & Hs).
        apply (kinds_disjoint x) in Hs;
          [|apply Hok; by eapply list_elem_of_lookup_2].
        destruct Hs as [?|[?|?]]; [left | right; left | right; right];
          exists x; (split; [lia|done]). }
  intros p l [[-> ->] | [-> ->]]; by apply Hparts.
Qed.

Lemma partitions_invariant_witness :
  let H := [VList [VAtom (AQobj 0); VAtom (AStr "sin(t)")]; VAtom (AQobj 1)] in
  StronglySorted lt [1]
  ∧ StronglySorted lt []
  ∧ StronglySorted lt [0]
  ∧ NoDup ([1] ++ [] ++ [0])%list
  ∧ ∀ k, k ∈ ([1] ++ [] ++ [0])%list
         ↔ ∃ x, H !! k = Some x ∧ skipped x = false.
Proof.
  intros H.
  apply (partitions_invariant H [] (Some "0.29") 10 (Parts [1] [] [0]) no_parts
           eq_refl (Parts [1] [] [0]) H).
  by left.
Defined.

(** X8: the order of the checks.  A Hamiltonian that fails its shape check
    raises its error whatever the collapse operators are; collapse operators
    that are not a list ([None], a single operator) raise theirs once the
    Hamiltonian has passed; and a list that mixes callbacks and strings
    raises the error on mixed formats before Cython is looked for. *)
Theorem checks_in_order (H c : val) cython solver :
  (∀ e, check_H H = Raise e →
        _ode_checks H c cython solver = Raise (TypeError msg_H))
  ∧ (∀ h, check_H H = Ok h → isinstance_list c = false →
          _ode_checks H c cython solver = Raise (TypeError msg_c))
  ∧ (∀ h pc, check_H H = Ok h → check_c_ops c = Ok pc →
       (p_func h ≠ [] ∧ p_str h ≠ []) ∨ (p_func pc ≠ [] ∧ p_str pc ≠ []) →
       _ode_checks H c cython solver = Raise (TypeError msg_mix)).
Proof.
  unfold _ode_checks. split; [|split].
  - intros e He. rewrite He. by apply check_H_Raise in He as ->.
  - intros h Hh Hc. rewrite Hh. simpl. by destruct c.
  - intros h pc Hh Hpc Hmix. rewrite Hh, Hpc. simpl.
    destruct Hmix as [[Hf Hs] | [Hf Hs]].
    + by destruct (p_func h), (p_str h).
    + destruct (p_func pc), (p_str pc); try done.
      by rewrite orb_true_r.
Qed.

Lemma checks_in_order_witness :
  _ode_checks (VAtom ANone) (VAtom ANone) None "me" = Raise (TypeError msg_H)
  ∧ _ode_checks (VAtom (AQobj 0)) (VAtom (AQobj 1)) None "me"
    = Raise (TypeError msg_c)
  ∧ _ode_checks
      (VList [VList [VAtom (AQobj 0); VAtom (AStr "sin(t)")];
              VList [VAtom (AQobj 0); VAtom (AFunction 0)]])
      (VList []) None "me" = Raise (TypeError msg_mix).
Proof.
  split; [|split].
  - apply (checks_in_order (VAtom ANone) (VAtom ANone) None "me")
      with (e := TypeError msg_H). reflexivity.
  - apply (checks_in_order (VAtom (AQobj 0)) (VAtom (AQobj 1)) None "me")
      with (h := no_parts); reflexivity.
  - apply (checks_in_order
             (VList [VList [VAtom (AQobj 0); VAtom (AStr "sin(t)")];
                     VList [VAtom (AQobj 0); VAtom (AFunction 0)]])
             (VList []) None "me")
      with (h := Parts [] [1] [0]) (pc := no_parts); try reflexivity.
    left. split; discriminate.
Defined.

End classifier_more.

(** * Further properties of [_td_wrap_array_str] *)

Section wrapper_more.

Implicit Types (H c args : val) (l : list val) (times : list num)
  (a : gmap string val).

Local Opaque td_array_name td_str.

(** Lists whose elements are of the same kinds, position by position, are
    checked alike. *)
Lemma check_terms_same_kinds msg l l' : ∀ k p,
  Forall2 (λ x y, isinstance_Qobj x = isinstance_Qobj y
                  ∧ callback_term x = callback_term y
                  ∧ string_term x = string_term y
                  ∧ malformed_term x = malformed_term y) l l' →
  check_terms msg k l p = check_terms msg k l' p.
Proof.
  intros k p Hall. revert k p.
  induction Hall as [|x y l l' (HQ & Hf & Hs & Hm) _ IH]; intros k p; [done|].
  rewrite !check_terms_cons, HQ, Hf, Hs, Hm.
  destruct (malformed_term y); [done|]. apply IH.
Qed.

(** The loop keeps the kind of every term: a rewritten pair is a
    string-like term as the array pair was. *)
Lemma wrap_terms_same_kinds times l : ∀ n new a n' new' a',
  wrap_terms times l n new a = Ok (n', new', a') →
  ∃ l2, new' = (new ++ l2)%list
        ∧ Forall2 (λ x y, isinstance_Qobj x = isinstance_Qobj y
                          ∧ callback_term x = callback_term y
                          ∧ string_term x = string_term y
                          ∧ malformed_term x = malformed_term y) l l2.
Proof.
  induction l as [|x l IH]; intros n new a n' new' a' Hw.
  { injection Hw as <- <- <-. exists []. by rewrite app_nil_r. }
  destruct (wrap_terms_cons_inv _ _ _ _ _ _ _ Hw)
    as [[Hx Hi] | (x0 & x1 & -> & Hx1)].
  - rewrite wrap_terms_keep in Hw by done.
    apply IH in Hw as (l2 & -> & Hall). exists (x :: l2).
    rewrite <- app_assoc. split; [done|]. by constructor.
  - rewrite wrap_terms_array in Hw by done.
    apply bind_Ok in Hw as (name & _ & Hw).
    apply bind_Ok in Hw as (s & _ & Hw).
    apply IH in Hw as (l2 & -> & Hall).
    exists (VList [x0; VAtom (AStr s)] :: l2).
    rewrite <- app_assoc. split; [done|]. constructor; [|done].
    by destruct x1 as [[]| |].
Qed.

(** X9: wrapping does not change what [_ode_checks] says: on what
    [_td_wrap_array_str] returns, the checks return the same result, or
    raise the same exception, as on its arguments, for every solver and
    Cython. *)
Theorem checks_after_wrap H c args times H' c' args' cython solver :
  _td_wrap_array_str H c args times = Ok (H', c', args') →
  _ode_checks H' c' cython solver = _ode_checks H c cython solver.
Proof.
  unfold _td_wrap_array_str. intros Hw.
  apply bind_Ok in Hw as ([[H1 c1] syn] & Hp & Hw).
  apply bind_Ok in Hw as (a1 & _ & Hw). injection Hw as <- <- <-.
  apply wrap_passes_inv in Hp as (n1 & a1' & n2 & HH & Hc).
  assert (check_H H1 = check_H H
          ∧ isinstance_FunctionType H1 = isinstance_FunctionType H)
    as [HcH HfH].
  { destruct H as [a0|l|d]; try by destruct HH as (_ & _ & ->).
    destruct HH as (new & (l2 & -> & Hall)%wrap_terms_same_kinds & ->).
    split; [|done]. rewrite !check_H_list. symmetry.
    by apply check_terms_same_kinds. }
  assert (check_c_ops c1 = check_c_ops c) as Hcc.
  { destruct c as [a0|l|d]; try by destruct Hc as (_ & _ & ->).
    destruct Hc as (new & (l2 & -> & Hall)%wrap_terms_same_kinds & ->).
    simpl. symmetry. by apply check_terms_same_kinds. }
  unfold _ode_checks, discriminant, time_type_of. by rewrite HcH, Hcc, HfH.
Qed.

Lemma checks_after_wrap_witness :
  let arr := VAtom (ANdarray [NInt 0; NInt 1; NInt 4]) in
  let expr := VAtom (AStr "(0 if (t > 2.000000) else _td_array_0[round(2 * (t/2.000000))])") in
  _ode_checks (VList [VList [VAtom (AQobj 0); expr]]) (VList [])
    (Some "0.29") "mc"
  = _ode_checks (VList [VList [VAtom (AQobj 0); arr]]) (VList [])
      (Some "0.29") "mc".
Proof.
  intros arr expr.
  apply (checks_after_wrap (VList [VList [VAtom (AQobj 0); arr]]) (VList [])
           (VAtom ANone) [NInt 0; NInt 1; NInt 2]
           (VList [VList [VAtom (AQobj 0); expr]]) (VList [])
           (VDict {[ "_td_array_0" := arr ]})).
  reflexivity.
Defined.

(** The expression string is built for every name when the grid is not
    empty and its last time converts to a [float]. *)
Lemma td_str_total times t me name :
  list.last times = Some t → to_float t = Ok me →
  ∃ s, td_str times name = Ok s.
Proof.
  intros Ht Hme. rewrite td_str_eq. unfold getitem_last. rewrite Ht. simpl.
  rewrite Hme. destruct me as [m e]. simpl. eauto.
Qed.

Lemma wrap_terms_total times t me l : ∀ n new a,
  list.last times = Some t → to_float t = Ok me →
  existsb malformed_term l = false →
  ∃ r, wrap_terms times l n new a = Ok r.
Proof.
  induction l as [|x l IH]; intros n new a Ht Hme Hl; [by eexists|].
  simpl in Hl. apply orb_false_iff in Hl as [Hx Hl].
  destruct (array_term x) eqn:Hax.
  - destruct x as [a0|[|x0 [|x1 [|? ?]]]|d]; try done.
    rewrite wrap_terms_array by done.
    rewrite td_array_name_eq. simpl.
    destruct (td_str_total times t me ("_td_array_" ++ pretty (Z.of_nat n))
                Ht Hme) as (s & ->). simpl.
    by apply IH.
  - rewrite wrap_terms_keep; [by apply IH|done|].
    by destruct x as [a0|[|x0 [|x1 [|? ?]]]|d].
Qed.

(** X10: the two functions compose: on a Hamiltonian and collapse operators that
    [_ode_checks] accepts, with a grid that is not empty and whose last time
    converts to a [float], and with parameters that are a [dict] or empty,
    [_td_wrap_array_str] returns. *)
Theorem accepted_input_wraps H c args times cython solver r t me :
  _ode_checks H c cython solver = Ok r →
  list.last times = Some t → to_float t = Ok me →
  isinstance_dict args = true ∨ truthy args = Ok false →
  ∃ H' c' args', _td_wrap_array_str H c args times = Ok (H', c', args').
Proof.
  unfold _ode_checks. intros Hr Ht Hme Hargs.
  apply bind_Ok in Hr as (h & Hh & Hr).
  apply bind_Ok in Hr as (pc & Hpc & _).
  assert (∀ v n a, (∃ p, check_H v = Ok p) ∨ (∃ p, check_c_ops v = Ok p) →
            ∃ r, wrap_pass times v n a = Ok r) as Hpass.
  { intros v n a Hv. unfold wrap_pass.
    destruct v as [a0|l|d]; try by eexists.
    assert (existsb malformed_term l = false) as Hl.
    { destruct Hv as [[p Hp]|[p Hp]].
      - by apply check_H_list_inv in Hp as [? _].
      - by apply check_c_ops_list_inv in Hp as [? _]. }
    destruct (wrap_terms_total times t me l n [] a Ht Hme Hl)
      as ([[n' new] a'] & ->).
    by eexists. }
  unfold _td_wrap_array_str, wrap_passes.
  destruct (Hpass H 0 ∅) as ([[n1 H'] a1] & ->); [by eauto|]. simpl.
  destruct (Hpass c n1 a1) as ([[n2 c'] a2] & ->); [by eauto|]. simpl.
  unfold merge_args. destruct Hargs as [Hd | ->].
  - destruct args as [?|?|d]; try done. simpl.
    destruct (negb _); simpl; eauto.
  - simpl. eauto.
Qed.

Lemma accepted_input_wraps_witness :
  ∃ H' c' args',
    _td_wrap_array_str
      (VList [VList [VAtom (AQobj 0); VAtom (ANdarray [NInt 1; NInt 2])]])
      (VList [VAtom (AQobj 1)]) (VAtom ANone) [NFloat 0 0; NFloat 1 (-1)]
    = Ok (H', c', args').
Proof.
  apply (accepted_input_wraps
           (VList [VList [VAtom (AQobj 0); VAtom (ANdarray [NInt 1; NInt 2])]])
           (VList [VAtom (AQobj 1)]) (VAtom ANone) [NFloat 0 0; NFloat 1 (-1)]
           (Some "0.29") "me" (RCounts 1 0 1) (NFloat 1 (-1)) (1%Z, (-1)%Z));
    try reflexivity.
  right. reflexivity.
Defined.


(** The keys the loop adds are the names of the indices it went through. *)
Lemma wrap_terms_keys times l : ∀ n new a n' new' a',
  wrap_terms times l n new a = Ok (n', new', a') →
  n ≤ n'
  ∧ ∀ k, is_Some (a' !! k)
         ↔ is_Some (a !! k) ∨ ∃ i, n ≤ i < n' ∧ td_array_name i = Ok k.
Proof.
  induction l as [|x l IH]; intros n new a n' new' a' Hw.
  { injection Hw as <- <- <-. split; [done|]. intros k. split; [by left|].
    intros [?|(i & ? & _)]; [done|lia]. }
  destruct (wrap_terms_cons_inv _ _ _ _ _ _ _ Hw)
    as [[Hx Hi] | (x0 & x1 & -> & Hx1)].
  - rewrite wrap_terms_keep in Hw by done. by eapply IH.
  - rewrite wrap_terms_array in Hw by done.
    apply bind_Ok in Hw as (name & Hname & Hw).
    apply bind_Ok in Hw as (s & _ & Hw).
    apply IH in Hw as [Hle Hkeys]. split; [lia|].
    intros k. rewrite Hkeys. split.
    + intros [Hk | (i & Hi & Hki)].
      * destruct (decide (name = k)) as [<-|Hne].
        { right. exists n. split; [lia|done]. }
        left. by rewrite lookup_insert_ne in Hk.
      * right. exists i. split; [lia|done].
    + intros [Hk | (i & Hi & Hki)].
      * left. destruct (decide (name = k)) as [<-|Hne].
        { by rewrite lookup_insert_eq. }
        by rewrite lookup_insert_ne.
      * destruct (decide (i = n)) as [->|Hne].
        { left. assert (k = name) as -> by congruence.
          by rewrite lookup_insert_eq. }
        right. exists i. split; [lia|done].
Qed.

(** X11: the mapping the two passes synthesize has exactly the keys
    [_td_array_0], ..., [_td_array_(k-1)], for [k] the number of
    array-encoded terms of the Hamiltonian and the collapse operators. *)
Theorem synthesized_keys H c times H' c' syn :
  wrap_passes H c times = Ok (H', c', syn) →
  ∀ key, is_Some (syn !! key)
         ↔ ∃ i, i < rank (terms H) (length (terms H))
                    + rank (terms c) (length (terms c))
                ∧ key = "_td_array_" ++ pretty (Z.of_nat i).
Proof.
  intros (n1 & a1 & n2 & HH & Hc)%wrap_passes_inv key.
  assert (n1 = rank (terms H) (length (terms H))
          ∧ (is_Some (a1 !! key)
             ↔ ∃ i, i < n1 ∧ td_array_name i = Ok key)) as [Hn1 Hk1].
  { destruct H as [a0|l|d].
    1,3: destruct HH as (-> & -> & _); split; [done|];
      rewrite lookup_empty; split; [by intros [? ?] | intros (i & ? & _); lia].
    destruct HH as (new & Hw & _).
    pose proof (wrap_terms_keys _ _ _ _ _ _ _ _ Hw) as [_ Hkeys].
    apply wrap_terms_spec in Hw as [-> _]. split; [done|].
    rewrite Hkeys, lookup_empty. split.
    - intros [[? ?]|(i & Hi & ?)]; [done|]. exists i. split; [lia|done].
    - intros (i & Hi & ?). right. exists i. split; [lia|done]. }
  assert (n2 = n1 + rank (terms c) (length (terms c))
          ∧ (is_Some (syn !! key)
             ↔ is_Some (a1 !! key)
               ∨ ∃ i, n1 ≤ i < n2 ∧ td_array_name i = Ok key)) as [Hn2 Hk2].
  { destruct c as [a0|l|d].
    1,3: destruct Hc as (-> & -> & _); split; [by rewrite rank_nil|];
      split; [by left | intros [?|(i & ? & _)]; [done|lia]].
    destruct Hc as (new & Hw & _).
    pose proof (wrap_terms_keys _ _ _ _ _ _ _ _ Hw) as [_ Hkeys].
    by apply wrap_terms_spec in Hw as [-> _]. }
  rewrite Hk2, Hk1, Hn2, <- Hn1. setoid_rewrite td_array_name_eq. split.
  - intros [(i & Hi & [= <-]) | (i & Hi & [= <-])]; exists i; split; [lia|done|lia|done].
  - intros (i & Hi & ->). destruct (decide (i < n1)).
    + left. by exists i.
    + right. exists i. split; [lia|done].
Qed.

Lemma synthesized_keys_witness :
  let arr := VAtom (ANdarray [NInt 0; NInt 1; NInt 4]) in
  let H := VList [VAtom (AQobj 0); VList [VAtom (AQobj 1); arr]] in
  let c := VList [VList [VAtom (AQobj 2); arr]] in
  ∃ H' c' syn,
    wrap_passes H c [NInt 0; NInt 1; NInt 2] = Ok (H', c', syn)
    ∧ ∀ key, is_Some (syn !! key)
             ↔ ∃ i, i < 1 + 1 ∧ key = "_td_array_" ++ pretty (Z.of_nat i).
Proof.
  intros arr H c.
  destruct (wrap_passes H c [NInt 0; NInt 1; NInt 2]) as [[[H' c'] syn]|e] eqn:Hw;
    [|by vm_compute in Hw].
  exists H', c', syn. split; [done|].
  exact (synthesized_keys H c [NInt 0; NInt 1; NInt 2] H' c' syn Hw).
Defined.

(** The loop goes through the terms it copies. *)
Lemma wrap_terms_app_keep times l1 l : ∀ n new a,
  Forall (λ x, array_term x = false ∧ indexable x = true) l1 →
  wrap_terms times (l1 ++ l)%list n new a
  = wrap_terms times l n (new ++ l1)%list a.
Proof.
  induction l1 as [|x l1 IH]; intros n new a Hl1.
  { by rewrite app_nil_r. }
  apply list.Forall_cons in Hl1 as [[Hx Hi] Hl1].
  rewrite <- app_comm_cons, wrap_terms_keep, IH by done.
  by rewrite <- app_assoc.
Qed.

(** X12: what [_td_wrap_array_str] raises on a Hamiltonian list the checks would
    refuse, or on an empty grid, at the first term it cannot handle: a list
    term with fewer than two items has no item 1 to test; an array in a list
    of more than two items does not unpack; and an array term finds no last
    time in an empty grid.  In each case the error is that of the Python
    operation, not one of the function's own. *)
Theorem wrap_failures l1 l2 c args times :
  Forall (λ x, array_term x = false ∧ indexable x = true) l1 →
  (∀ items, length items < 2 →
     _td_wrap_array_str (VList (l1 ++ VList items :: l2)%list) c args times
     = Raise (IndexError "list index out of range"))
  ∧ (∀ x0 x1 x2 rest, isinstance_ndarray x1 = true →
       _td_wrap_array_str
         (VList (l1 ++ VList (x0 :: x1 :: x2 :: rest) :: l2)%list) c args times
       = Raise (ValueError "too many values to unpack (expected 2)"))
  ∧ (∀ x0 x1, isinstance_ndarray x1 = true → times = [] →
       _td_wrap_array_str (VList (l1 ++ VList [x0; x1] :: l2)%list) c args times
       = Raise (IndexError "list index out of range")).
Proof.
  intros Hl1. unfold _td_wrap_array_str, wrap_passes, wrap_pass.
  split; [|split].
  - intros items Hlen. rewrite wrap_terms_app_keep by done.
    by destruct items as [|? [|? ?]]; [..|simpl in Hlen; lia].
  - intros x0 x1 x2 rest Hx1. rewrite wrap_terms_app_keep by done.
    simpl. by rewrite Hx1.
  - intros x0 x1 Hx1 ->. rewrite wrap_terms_app_keep by done.
    rewrite wrap_terms_array by done. rewrite td_array_name_eq. simpl.
    by rewrite td_str_eq.
Qed.

Lemma wrap_failures_witness :
  _td_wrap_array_str (VList [VAtom (AQobj 0); VList [VAtom (AQobj 1)]])
    (VList []) (VAtom ANone) [NInt 0; NInt 1]
  = Raise (IndexError "list index out of range")
  ∧ _td_wrap_array_str
      (VList [VAtom (AQobj 0);
              VList [VAtom (AQobj 1); VAtom (ANdarray []); VAtom ANone]])
      (VList []) (VAtom ANone) [NInt 0; NInt 1]
    = Raise (ValueError "too many values to unpack (expected 2)")
  ∧ _td_wrap_array_str
      (VList [VAtom (AQobj 0); VList [VAtom (AQobj 1); VAtom (ANdarray [])]])
      (VList []) (VAtom ANone) []
    = Raise (IndexError "list index out of range").
Proof.
  assert (Forall (λ x, array_term x = false ∧ indexable x = true)
            [VAtom (AQobj 0)]) as Hl1 by (by repeat constructor).
  destruct (wrap_failures [VAtom (AQobj 0)] [] (VList []) (VAtom ANone)
              [NInt 0; NInt 1] Hl1) as (Hshort & Hlong & _).
  destruct (wrap_failures [VAtom (AQobj 0)] [] (VList []) (VAtom ANone)
              [] Hl1) as (_ & _ & Hgrid).
  split; [|split].
  - apply (Hshort [VAtom (AQobj 1)]). simpl. lia.
  - apply (Hlong (VAtom (AQobj 1)) (VAtom (ANdarray [])) (VAtom ANone) []).
    reflexivity.
  - apply (Hgrid (VAtom (AQobj 1)) (VAtom (ANdarray []))); reflexivity.
Defined.


Local Transparent td_array_name td_str.

Lemma append_assoc (s1 s2 s3 : string) : (s1 ++ s2) ++ s3 = s1 ++ (s2 ++ s3).
Proof.
  induction s1 as [|ch s1 IH]; [done|].
  change ((String ch s1 ++ s2) ++ s3) with (String ch ((s1 ++ s2) ++ s3)).
  change (String ch s1 ++ (s2 ++ s3)) with (String ch (s1 ++ (s2 ++ s3))).
  by rewrite IH.
Qed.

(** [%f] of a non-negative [int] below [2^53]: its digits and six zeros. *)
Lemma format_f_int T : (0 ≤ T)%Z → format_f T 0 = pretty T ++ ".000000".
Proof.
  intros HT. unfold format_f, round_half_even.
  change (Z.max 0 0) with 0%Z. change (Z.max 0 (- 0)) with 0%Z.
  change (2 ^ 0)%Z with 1%Z.
  rewrite Z.abs_eq, Z.mul_1_r, Z.div_1_r, Z.mod_1_r by done.
  change (1 <? 2 * 0)%Z with false. change (1 =? 2 * 0)%Z with false.
  cbv [orb andb].
  rewrite Z.div_mul, Z.mod_mul by done.
  destruct (Z.ltb_spec T 0); [lia|]. reflexivity.
Qed.

(** [%f] of a non-negative [float] below [5e-7]: zero. *)
Lemma format_f_small m e :
  (0 ≤ m)%Z → (2 * (m * 2 ^ Z.max 0 e * 10 ^ 6) < 2 ^ Z.max 0 (- e))%Z →
  format_f m e = "0.000000".
Proof.
  intros Hm Hsmall. unfold format_f, round_half_even.
  rewrite (Z.abs_eq m) by done.
  set (num := (m * 2 ^ Z.max 0 e * 10 ^ 6)%Z) in *.
  set (den := (2 ^ Z.max 0 (- e))%Z) in *.
  assert (0 ≤ num)%Z as Hnum.
  { unfold num. apply Z.mul_nonneg_nonneg; [|done].
    apply Z.mul_nonneg_nonneg; [done|]. apply Z.pow_nonneg. lia. }
  clearbody num den.
  rewrite (Z.div_small num den), (Z.mod_small num den) by lia.
  destruct (Z.ltb_spec den (2 * num)); [lia|].
  destruct (Z.eqb_spec den (2 * num)); [lia|].
  destruct (Z.ltb_spec m 0); [lia|]. reflexivity.
Qed.

(** X13: the expression string on a grid that ends with a non-negative [int]
    [T] below [2^53]: the final time is written [T.000000], and the number
    of intervals is the length of the grid less one. *)
Theorem td_str_int_grid times T name :
  list.last times = Some (NInt T) → (0 ≤ T < 2 ^ 53)%Z →
  td_str times name
  = Ok ("(0 if (t > " ++ pretty T ++ ".000000) else " ++ name ++ "[round("
        ++ pretty (Z.of_nat (length times) - 1)%Z ++ " * (t/"
        ++ pretty T ++ ".000000))])").
Proof.
  intros Hlast HT. rewrite td_str_eq. unfold getitem_last. rewrite Hlast.
  change (Ok (NInt T) ≫= ?f) with (f (NInt T)). cbv beta.
  unfold to_float. rewrite float_of_int_small by lia.
  change (Ok (T, 0%Z) ≫= ?f) with (f (T, 0%Z)). cbv beta iota.
  rewrite format_f_int by lia. by rewrite !append_assoc.
Qed.

Lemma td_str_int_grid_witness :
  td_str [NInt 0; NInt 5; NInt 10] "_td_array_3"
  = Ok ("(0 if (t > " ++ pretty 10%Z ++ ".000000) else " ++ "_td_array_3"
        ++ "[round(" ++ pretty (Z.of_nat 3 - 1)%Z ++ " * (t/"
        ++ pretty 10%Z ++ ".000000))])").
Proof.
  apply (td_str_int_grid [NInt 0; NInt 5; NInt 10] 10 "_td_array_3").
  - reflexivity.
  - split; [lia|reflexivity].
Defined.

(** X14: the expression string on a grid that ends below [5e-7] (a [float]
    [m * 2^e] with [0 <= m] and [2 * m * 2^e * 10^6 < 1]): the six digits
    of [%f] leave nothing of the final time, and the string compares [t]
    with [0.000000] and divides by [0.000000]. *)
Theorem td_str_small_grid times m e name :
  list.last times = Some (NFloat m e) →
  (0 ≤ m)%Z → (2 * (m * 2 ^ Z.max 0 e * 10 ^ 6) < 2 ^ Z.max 0 (- e))%Z →
  td_str times name
  = Ok ("(0 if (t > 0.000000) else " ++ name ++ "[round("
        ++ pretty (Z.of_nat (length times) - 1)%Z ++ " * (t/0.000000))])").
Proof.
  intros Hlast Hm Hsmall. rewrite td_str_eq. unfold getitem_last.
  rewrite Hlast.
  change (Ok (NFloat m e) ≫= ?f) with (f (NFloat m e)). cbv beta.
  change (to_float (NFloat m e)) with (Ok (m, e) : result (Z * Z)).
  change (Ok (m, e) ≫= ?f) with (f (m, e)). cbv beta iota.
  by rewrite format_f_small.
Qed.

Lemma td_str_small_grid_witness :
  td_str [NFloat 0 0; NFloat 1 (-30)] "_td_array_0"
  = Ok ("(0 if (t > 0.000000) else " ++ "_td_array_0" ++ "[round("
        ++ pretty (Z.of_nat 2 - 1)%Z ++ " * (t/0.000000))])").
Proof.
  apply (td_str_small_grid [NFloat 0 0; NFloat 1 (-30)] 1 (-30) "_td_array_0").
  - reflexivity.
  - lia.
  - reflexivity.
Defined.

End wrapper_more.

(** * Further properties of [_td_wrap_array_str] over the object store *)

Section store_more.

Implicit Types (σ : gmap Store.loc Store.obj) (r : Store.ref)
  (l : Store.loc) (times : list num).

Lemma keeps_as_list_of σ0 r :
  keeps σ0 (Store.as_list r)
    (λ o, (∀ l items, r = Store.RObj l → σ0 !! l = Some (Store.OList items) →
             o = Some items)
          ∧ (∀ a, r = Store.RAtom a → o = None)
          ∧ (∀ l d, r = Store.RObj l → σ0 !! l = Some (Store.ODict d) →
               o = None)).
Proof.
  intros σ Hσ. unfold Store.as_list. destruct r as [a|l].
  { split; [done|]. intros o [= <-]. by repeat split. }
  destruct (σ !! l) as [[items|d]|] eqn:Hl; simpl; (split; [done|]);
    intros o [= <-]; (split; [|split]); try done;
    intros l' x [= <-] Hl';
    rewrite (lookup_weaken _ _ _ _ Hl' Hσ) in Hl; congruence.
Qed.

Lemma keeps_as_dict_of σ0 r :
  keeps σ0 (Store.as_dict r)
    (λ o, ∀ l d, r = Store.RObj l → σ0 !! l = Some (Store.ODict d) →
            o = Some d).
Proof.
  intros σ Hσ. unfold Store.as_dict. destruct r as [a|l]; [done|].
  destruct (σ !! l) as [[items|d]|] eqn:Hl; simpl; (split; [done|]);
    intros o [= <-] l' d' [= <-] Hl';
    rewrite (lookup_weaken _ _ _ _ Hl' Hσ) in Hl; congruence.
Qed.

Lemma keeps_raise σ0 {A} e (R : A → Prop) :
  keeps σ0 (Store.lift (Raise e)) R.
Proof. intros σ Hσ. split; [done|]. by intros a [=]. Qed.

(** A pass returns the list it has built when its argument is a list, and
    its argument when it is an atom or a [dict]. *)
Lemma keeps_wrap_pass_of σ0 times H n new args_new :
  σ0 !! new = None → σ0 !! args_new = None →
  keeps σ0 (Store.wrap_pass times H n new args_new)
    (λ '(_, r), (r = H ∨ r = Store.RObj new)
                ∧ (∀ l items, H = Store.RObj l →
                     σ0 !! l = Some (Store.OList items) → r = Store.RObj new)
                ∧ (∀ a, H = Store.RAtom a → r = H)
                ∧ (∀ l d, H = Store.RObj l →
                     σ0 !! l = Some (Store.ODict d) → r = H)).
Proof.
  intros Hnew Hargs. unfold Store.wrap_pass.
  eapply keeps_bind; [apply keeps_as_list_of|].
  intros [items|] (Hlist & Hatom & Hdict).
  - eapply keeps_bind; [by apply keeps_wrap_terms|]. intros n' _.
    apply keeps_ret. split; [by right|]. split; [done|]. split.
    + intros a HH. by specialize (Hatom a HH).
    + intros l d HH Hl. by specialize (Hdict l d HH Hl).
  - apply keeps_ret. split; [by left|]. split; [|done].
    intros l items HH Hl. by specialize (Hlist l items HH Hl).
Qed.

(** X15: what is returned is new when the argument is a list or a [dict]: called
    on a Hamiltonian that is a list object, [_td_wrap_array_str] returns a
    reference to an object that was not in the store, never the caller's
    list; the same for collapse operators that are a list, and for
    parameters that are a [dict].  A Hamiltonian or collapse operators that
    are not a list, an atom (an operator, a function, [None]) or a [dict]
    object, are returned as they are. *)
Theorem results_are_new σ H c_ops args times H' c_ops' args' σ' :
  Store._td_wrap_array_str H c_ops args times σ = (Ok (H', c_ops', args'), σ') →
  (∀ l items, H = Store.RObj l → σ !! l = Some (Store.OList items) →
     ∃ l', H' = Store.RObj l' ∧ σ !! l' = None)
  ∧ (∀ l items, c_ops = Store.RObj l → σ !! l = Some (Store.OList items) →
       ∃ l', c_ops' = Store.RObj l' ∧ σ !! l' = None)
  ∧ (∀ l d, args = Store.RObj l → σ !! l = Some (Store.ODict d) →
       ∃ l', args' = Store.RObj l' ∧ σ !! l' = None)
  ∧ (H' = H ∨ ∃ l', H' = Store.RObj l' ∧ σ !! l' = None)
  ∧ (c_ops' = c_ops ∨ ∃ l', c_ops' = Store.RObj l' ∧ σ !! l' = None)
  ∧ (∀ a, H = Store.RAtom a → H' = H)
  ∧ (∀ l d, H = Store.RObj l → σ !! l = Some (Store.ODict d) → H' = H)
  ∧ (∀ a, c_ops = Store.RAtom a → c_ops' = c_ops)
  ∧ (∀ l d, c_ops = Store.RObj l → σ !! l = Some (Store.ODict d) →
       c_ops' = c_ops).
Proof.
  intros Hrun.
  assert (keeps σ (Store._td_wrap_array_str H c_ops args times)
            (λ '(H', c_ops', args'),
               (∀ l items, H = Store.RObj l →
                  σ !! l = Some (Store.OList items) →
                  ∃ l', H' = Store.RObj l' ∧ σ !! l' = None)
               ∧ (∀ l items, c_ops = Store.RObj l →
                    σ !! l = Some (Store.OList items) →
                    ∃ l', c_ops' = Store.RObj l' ∧ σ !! l' = None)
               ∧ (∀ l d, args = Store.RObj l →
                    σ !! l = Some (Store.ODict d) →
                    ∃ l', args' = Store.RObj l' ∧ σ !! l' = None)
               ∧ (H' = H ∨ ∃ l', H' = Store.RObj l' ∧ σ !! l' = None)
               ∧ (c_ops' = c_ops ∨ ∃ l', c_ops' = Store.RObj l' ∧ σ !! l' = None)
               ∧ (∀ a, H = Store.RAtom a → H' = H)
               ∧ (∀ l d, H = Store.RObj l → σ !! l = Some (Store.ODict d) →
                    H' = H)
               ∧ (∀ a, c_ops = Store.RAtom a → c_ops' = c_ops)
               ∧ (∀ l d, c_ops = Store.RObj l →
                    σ !! l = Some (Store.ODict d) → c_ops' = c_ops)))
    as Hkeeps.
  { unfold Store._td_wrap_array_str.
    eapply keeps_bind; [apply keeps_alloc|]. intros H_new HH. simpl in HH.
    eapply keeps_bind; [apply keeps_alloc|]. intros c_new Hc. simpl in Hc.
    eapply keeps_bind; [apply keeps_alloc|]. intros args_new Ha. simpl in Ha.
    eapply keeps_bind; [by apply keeps_wrap_pass_of|].
    intros [n H_out] (HHo & HHl & HHa & HHd).
    eapply keeps_bind; [by apply keeps_wrap_pass_of|].
    intros [n_end c_out] (Hco & Hcl & Hca & Hcd).
    assert ((∀ l items, H = Store.RObj l → σ !! l = Some (Store.OList items) →
               ∃ l', H_out = Store.RObj l' ∧ σ !! l' = None)
            ∧ (∀ l items, c_ops = Store.RObj l →
                 σ !! l = Some (Store.OList items) →
                 ∃ l', c_out = Store.RObj l' ∧ σ !! l' = None)
            ∧ (H_out = H ∨ ∃ l', H_out = Store.RObj l' ∧ σ !! l' = None)
            ∧ (c_out = c_ops ∨ ∃ l', c_out = Store.RObj l' ∧ σ !! l' = None))
      as (HH1 & Hc1 & HH2 & Hc2).
    { split; [|split; [|split]].
      - intros l items ? ?. exists H_new. split; [by eapply HHl | done].
      - intros l items ? ?. exists c_new. split; [by eapply Hcl | done].
      - destruct HHo as [->| ->]; [by left | right; eauto].
      - destruct Hco as [->| ->]; [by left | right; eauto]. }
    eapply keeps_bind; [apply keeps_truthy|]. intros [] _.
    - eapply keeps_bind; [apply keeps_as_dict_of|]. intros [d|] Hd.
      + eapply keeps_bind; [by apply keeps_dict_update|]. intros [] _.
        apply keeps_ret. repeat split; try done. eauto.
      + eapply keeps_bind; [apply keeps_truthy|]. intros [] _; simpl.
        * apply keeps_raise.
        * apply keeps_ret. repeat split; try done.
          intros l d Hargs Hl. by specialize (Hd l d Hargs Hl).
    - apply keeps_ret. repeat split; try done. eauto. }
  destruct (Hkeeps σ) as [_ Hpost]; [done|].
  rewrite Hrun in Hpost. by apply (Hpost (H', c_ops', args')).
Qed.

Lemma results_are_new_witness :
  let σ : gmap Store.loc Store.obj :=
    <[2%positive := Store.ODict ∅]>
      {[ 1%positive := Store.OList [Store.RAtom (AQobj 0)] ]} in
  ∃ H' c_ops' args' σ',
    Store._td_wrap_array_str (Store.RAtom (AFunction 0)) (Store.RObj 1%positive)
      (Store.RObj 2%positive) [] σ = (Ok (H', c_ops', args'), σ')
    ∧ H' = Store.RAtom (AFunction 0)
    ∧ (∃ l', c_ops' = Store.RObj l' ∧ σ !! l' = None)
    ∧ (∃ l', args' = Store.RObj l' ∧ σ !! l' = None).
Proof.
  intros σ.
  destruct (Store._td_wrap_array_str (Store.RAtom (AFunction 0))
              (Store.RObj 1%positive) (Store.RObj 2%positive) [] σ)
    as [[[[H' c'] a']|e] σ'] eqn:Hrun; [|by vm_compute in Hrun].
  exists H', c', a', σ'. split; [done|].
  destruct (results_are_new σ _ _ _ _ _ _ _ _ Hrun)
    as (_ & Hc & Ha & _ & _ & HH & _).
  split; [|split].
  - by apply (HH (AFunction 0)).
  - by apply (Hc 1%positive [Store.RAtom (AQobj 0)]).
  - by apply (Ha 2%positive ∅).
Defined.

(** X16: the result depends on the values of the arguments only.  Called on
    references that stand for the values [H], [c_ops] and [args] in a store,
    however the objects are shared between them, the function raises the
    exception, or returns references that stand for the three values, that
    the computation on the values alone gives; and the store it ends in
    holds every object of the store it started from, unchanged. *)
Theorem result_by_value σ rH rc ra H c args times :
  Store.repr σ rH H → Store.repr σ rc c → Store.repr σ ra args →
  ∃ res σ',
    Store._td_wrap_array_str rH rc ra times σ = (res, σ')
    ∧ σ ⊆ σ'
    ∧ match _td_wrap_array_str H c args times with
      | Ok (H', c', args') =>
          ∃ rH' rc' ra',
            res = Ok (rH', rc', ra')
            ∧ Store.repr σ' rH' H' ∧ Store.repr σ' rc' c'
            ∧ Store.repr σ' ra' args'
      | Raise e => res = Raise e
      end.
Proof. apply td_wrap_refines. Qed.

Lemma result_by_value_witness :
  let arr := ANdarray [NInt 0; NInt 1; NInt 4] in
  let σ : gmap Store.loc Store.obj :=
    <[2%positive := Store.OList [Store.RObj 1%positive]]>
      {[ 1%positive :=
           Store.OList [Store.RAtom (AQobj 0); Store.RAtom arr] ]} in
  let H := VList [VList [VAtom (AQobj 0); VAtom arr]] in
  ∃ res σ',
    Store._td_wrap_array_str (Store.RObj 2%positive) (Store.RObj 2%positive)
      (Store.RAtom ANone) [NInt 0; NInt 1; NInt 2] σ = (res, σ')
    ∧ σ ⊆ σ'
    ∧ match _td_wrap_array_str H H (VAtom ANone) [NInt 0; NInt 1; NInt 2] with
      | Ok (H', c', args') =>
          ∃ rH' rc' ra',
            res = Ok (rH', rc', ra')
            ∧ Store.repr σ' rH' H' ∧ Store.repr σ' rc' c'
            ∧ Store.repr σ' ra' args'
      | Raise e => res = Raise e
      end.
Proof.
  intros arr σ H.
  assert (Store.repr σ (Store.RObj 2%positive) H) as HrH.
  { apply Store.repr_list with [Store.RObj 1%positive]; [reflexivity|].
    constructor; [|constructor].
    apply Store.repr_list with [Store.RAtom (AQobj 0); Store.RAtom arr];
      [reflexivity|].
    repeat constructor. }
  apply (result_by_value σ (Store.RObj 2%positive) (Store.RObj 2%positive)
           (Store.RAtom ANone) H H (VAtom ANone) [NInt 0; NInt 1; NInt 2]).
  - exact HrH.
  - exact HrH.
  - constructor.
Defined.

End store_more.
